(** * Stateful graph execution: the chat executor and the plan-and-execute
      notebooks, over the superstep engine they are run by.

    The notebooks declare state schemas, node functions, routers and edge
    tables; the engine that merges partial updates, schedules supersteps,
    enforces the recursion limit and checkpoints states is imported by them.
    Node bodies, routers, schemas and graph wiring are embedded from the
    notebooks; the engine is embedded from its written contract. *)

From Stdlib Require Import List String Ascii Lia.
From stdpp Require Import base option list gmap strings.
Import ListNotations.

Local Open Scope string_scope.
Local Open Scope list_scope.

(** ** Results and errors *)

Inductive result (E A : Type) : Type :=
| Ok (a : A)
| Err (e : E).
Arguments Ok {E A} a.
Arguments Err {E A} e.

Definition rbind {E A B} (m : result E A) (k : A -> result E B) : result E B :=
  match m with
  | Ok a => k a
  | Err e => Err e
  end.

Notation "x <-! m ; k" := (rbind m (fun x => k))
  (at level 100, m at next level, right associativity).

(** Python exceptions a node body or a router of the notebooks can raise:
    the [IndexError] of list indexing, a [KeyError] with the missing key, an
    [AttributeError] and a [JSONDecodeError] with the message they were built
    with, and any other exception of a collaborator with its message. *)
Inductive exn : Type :=
| IndexError
| KeyError (key : string)
| AttributeError (message : string)
| JSONDecodeError (errmsg : string)
| ExternalError (message : string).

(** The [AttributeError] of [obj.attr] on an object without that attribute. *)
Definition no_attribute (type_name attr : string) : exn :=
  AttributeError ("'" ++ type_name ++ "' object has no attribute '" ++ attr ++ "'").

Definition single_quote : ascii := ascii_of_nat 39.
Definition double_quote : ascii := ascii_of_nat 34.
Definition backslash : ascii := ascii_of_nat 92.

Fixpoint has_char (c : ascii) (s : string) : bool :=
  match s with
  | EmptyString => false
  | String c' s' => Ascii.eqb c' c || has_char c s'
  end.

Definition hex_digit (n : nat) : ascii :=
  ascii_of_nat (if Nat.ltb n 10 then 48 + n else 87 + n).

(** One character of [repr(s)]: the quote in use and the backslash are
    escaped, tab, newline and carriage return are written with their letter,
    the other control characters as [\xhh]; characters beyond ASCII are
    kept, as [repr] keeps the printable ones. *)
Definition repr_char (quote c : ascii) : string :=
  let n := nat_of_ascii c in
  if Ascii.eqb c quote || Ascii.eqb c backslash then String backslash (String c "")
  else if Nat.eqb n 9 then String backslash "t"
  else if Nat.eqb n 10 then String backslash "n"
  else if Nat.eqb n 13 then String backslash "r"
  else if Nat.ltb n 32 || Nat.eqb n 127 then
    String backslash (String "x" (String (hex_digit (n / 16)) (String (hex_digit (n mod 16)) "")))
  else String c "".

Fixpoint repr_chars (quote : ascii) (s : string) : string :=
  match s with
  | EmptyString => ""
  | String c s' => repr_char quote c ++ repr_chars quote s'
  end.

(** [repr(s)] on a string: in single quotes, or in double quotes when the
    string holds a single quote and no double quote. *)
Definition py_repr (s : string) : string :=
  let quote :=
    if has_char single_quote s && negb (has_char double_quote s) then double_quote
    else single_quote in
  String quote (repr_chars quote s ++ String quote "").



(** [str(e)] for an exception: the message it was built with; for a
    [KeyError], the [repr] of the key. *)
Definition str_exn (e : exn) : string :=
  match e with
  | IndexError => "list index out of range"
  | KeyError k => py_repr k
  | AttributeError m => m
  | JSONDecodeError m => m
  | ExternalError m => m
  end.

(** Keys of the outcome map of a conditional edge: the chat executor binds
    strings, the plan-and-execute graph binds booleans. *)
Inductive outcome_key : Type :=
| KStr (s : string)
| KBool (b : bool).

Definition outcome_eqb (a b : outcome_key) : bool :=
  match a, b with
  | KStr x, KStr y => String.eqb x y
  | KBool x, KBool y => Bool.eqb x y
  | _, _ => false
  end.

(** Engine errors (the error taxonomy of the engine's contract). *)
Inductive error : Type :=
| NodeExecutionFailure (node : string) (e : exn)
| RouterFailure (node : string) (e : exn)
| RoutingError (node : string) (k : outcome_key)
| UnknownNode (node : string)
| RecursionLimitExceeded (step : nat).

(** The errors a superstep itself can end in: all but the recursion error. *)
Definition engine_raised (e : error) : Prop :=
  match e with
  | RecursionLimitExceeded _ => False
  | _ => True
  end.

(** ** Reducers *)

(** Modelled from the spec: the [replace] merge policy of the engine, which
    the notebooks import. A field without a reducer annotation is
    overwritten by an update that contains it and kept otherwise. *)
Definition merge_replace {A} (current : option A) (partial : option A) : option A :=
  match partial with
  | Some v => Some v
  | None => current
  end.

(** Modelled from the spec: the [append] merge policy of the engine. A field
    annotated with [operator.add] becomes the current sequence followed by
    the update's sequence when the update contains the field. *)
Definition merge_append {A} (current : list A) (partial : option (list A)) : list A :=
  match partial with
  | Some l => current ++ l
  | None => current
  end.

(** ** The engine *)

(** The [configurable] dict of a config: the thread id the checkpointer is
    keyed by, and the further keys a caller puts there. *)
Record Configurable : Type := {
  thread_id : string;
  other_keys : gmap string nat
}.

(** A config as the notebooks build it: the config's own [recursion_limit]
    key, when the config holds one, and the [configurable] dict. *)
Record RunnableConfig : Type := {
  recursion_limit : option nat;
  configurable : Configurable
}.

Inductive Target : Type :=
| Goto (node : string)
| END.

Definition target_nodes (t : Target) : list string :=
  match t with
  | Goto n => [n]
  | END => []
  end.

Fixpoint assoc {A} (k : string) (l : list (string * A)) : option A :=
  match l with
  | [] => None
  | (k', v) :: l' => if String.eqb k' k then Some v else assoc k l'
  end.

Fixpoint lookup_outcome (k : outcome_key) (l : list (outcome_key * Target)) : option Target :=
  match l with
  | [] => None
  | (k', t) :: l' => if outcome_eqb k' k then Some t else lookup_outcome k l'
  end.

Fixpoint mem_string (x : string) (l : list string) : bool :=
  match l with
  | [] => false
  | y :: l' => String.eqb y x || mem_string x l'
  end.

(** The frontier is a set: keep the first occurrence of each node. *)
Fixpoint dedup (seen l : list string) : list string :=
  match l with
  | [] => []
  | x :: l' => if mem_string x seen then dedup seen l' else x :: dedup (x :: seen) l'
  end.

Fixpoint collect {E A B} (f : A -> result E B) (l : list A) : result E (list B) :=
  match l with
  | [] => Ok []
  | a :: l' => b <-! f a; bs <-! collect f l'; Ok (b :: bs)
  end.

Section Engine.
Context {State Update : Type}.

(** The schema: the empty state and the field-wise merge. *)
Variable empty_state : State.
Variable merge : State -> Update -> State.

Inductive Edge : Type :=
| Static (src : string) (dst : Target)
| Conditional (src : string) (router : State -> result exn outcome_key)
              (mapping : list (outcome_key * Target)).

(** A compiled graph: node registry, edge table, entry point, and whether
    it was compiled with a checkpointer. *)
Record Graph : Type := {
  nodes : list (string * (State -> result exn Update));
  edges : list Edge;
  entry_point : string;
  checkpointer : bool
}.

Record Checkpoint : Type := {
  step_index : nat;
  state_snapshot : State;
  next_frontier : list string
}.

(** One streamed event: the partial updates of the nodes of a superstep. *)
Definition Event : Type := list (string * Update).

Inductive status : Type :=
| Finished
| Aborted (e : error).

Record Run : Type := {
  run_status : status;
  run_state : State;
  run_events : list Event;
  run_store : gmap string (list Checkpoint)
}.

(** Modelled from the spec: the checkpointer of the engine. [save] adds a
    new checkpoint and keeps the earlier ones as history; [load] gives the
    latest checkpoint of a thread. *)
Definition save (thread_id : string) (ck : Checkpoint)
    (st : gmap string (list Checkpoint)) : gmap string (list Checkpoint) :=
  <[thread_id := ck :: default [] (st !! thread_id)]> st.

Definition load (thread_id : string) (st : gmap string (list Checkpoint)) : option Checkpoint :=
  match st !! thread_id with
  | Some (ck :: _) => Some ck
  | _ => None
  end.

Definition run_node (g : Graph) (s : State) (n : string) : result error (string * Update) :=
  match assoc n (nodes g) with
  | None => Err (UnknownNode n)
  | Some body =>
      match body s with
      | Ok u => Ok (n, u)
      | Err e => Err (NodeExecutionFailure n e)
      end
  end.

Definition merge_all (s : State) (outs : Event) : State :=
  fold_left (fun acc o => merge acc (snd o)) outs s.

Definition route_edge (s : State) (n : string) (e : Edge) : result error (list string) :=
  match e with
  | Static src dst => if String.eqb src n then Ok (target_nodes dst) else Ok []
  | Conditional src router mapping =>
      if String.eqb src n then
        match router s with
        | Err x => Err (RouterFailure n x)
        | Ok k =>
            match lookup_outcome k mapping with
            | Some t => Ok (target_nodes t)
            | None => Err (RoutingError n k)
            end
        end
      else Ok []
  end.

Definition route_node (g : Graph) (s : State) (n : string) : result error (list string) :=
  tss <-! collect (route_edge s n) (edges g); Ok (concat tss).

Definition advance_frontier (g : Graph) (s : State) (active : list string)
    : result error (list string) :=
  tss <-! collect (route_node g s) active; Ok (dedup [] (concat tss)).

(** Modelled from the spec: one superstep of the engine's scheduler. Every
    node of the frontier runs on the same input state, the partial updates
    are merged in scheduling order, and the outgoing edges are evaluated on
    the merged state. *)
Definition superstep (g : Graph) (s : State) (frontier : list string)
    : result error (State * list string * Event) :=
  outs <-! collect (run_node g s) frontier;
  let s' := merge_all s outs in
  frontier' <-! advance_frontier g s' frontier;
  Ok (s', frontier', outs).

Definition commit (g : Graph) (thread_id : string) (ck : Checkpoint)
    (st : gmap string (list Checkpoint)) : gmap string (list Checkpoint) :=
  if checkpointer g then save thread_id ck st else st.

(** Modelled from the spec: the superstep loop of the engine's scheduler.
    [limit] is what is left of the recursion limit, [taken] the number of
    supersteps of this invocation already committed, [base] the step index
    of the checkpoint the invocation started from. *)
Fixpoint superstep_loop (g : Graph) (thread_id : string) (limit taken base : nat)
    (s : State) (frontier : list string) (st : gmap string (list Checkpoint))
    (evs : list Event) : Run :=
  match frontier with
  | [] => {| run_status := Finished; run_state := s; run_events := evs; run_store := st |}
  | _ :: _ =>
      match limit with
      | 0 => {| run_status := Aborted (RecursionLimitExceeded (S taken));
                run_state := s; run_events := evs; run_store := st |}
      | S limit' =>
          match superstep g s frontier with
          | Err e => {| run_status := Aborted e; run_state := s;
                        run_events := evs; run_store := st |}
          | Ok (s', frontier', ev) =>
              let ck := {| step_index := base + S taken; state_snapshot := s';
                           next_frontier := frontier' |} in
              superstep_loop g thread_id limit' (S taken) base s' frontier'
                (commit g thread_id ck st) (evs ++ [ev])
          end
      end
  end.

(** Modelled from the spec: the invocation API of the engine. A fresh
    external input is merged into the restored state of the thread (or into
    the empty state) and the run enters at the entry point. *)
Definition invoke (g : Graph) (st : gmap string (list Checkpoint)) (thread_id : string)
    (input : Update) (recursion_limit : nat) : Run :=
  let restored := if checkpointer g then load thread_id st else None in
  let base := match restored with Some ck => step_index ck | None => 0 end in
  let s0 := match restored with
            | Some ck => merge (state_snapshot ck) input
            | None => merge empty_state input
            end in
  superstep_loop g thread_id recursion_limit 0 base s0 [entry_point g] st [].

(** Modelled from the spec: the invocation API given a config. The thread id
    is read from [configurable]; the recursion limit is the config's own
    [recursion_limit] key, and the engine's default when the config holds no
    such key. What else [configurable] holds is not read. *)
Definition invoke_config (g : Graph) (st : gmap string (list Checkpoint)) (input : Update)
    (config : RunnableConfig) (default_limit : nat) : Run :=
  invoke g st (thread_id (configurable config)) input
    (default default_limit (recursion_limit config)).

(** The unbounded iteration of supersteps, without store and limit: the
    configuration after [k] supersteps. *)
Fixpoint after_supersteps (g : Graph) (k : nat) (s : State) (frontier : list string)
    : result error (State * list string) :=
  match k with
  | 0 => Ok (s, frontier)
  | S k' =>
      match frontier with
      | [] => Ok (s, [])
      | _ :: _ =>
          match superstep g s frontier with
          | Err e => Err e
          | Ok (s', frontier', _) => after_supersteps g k' s' frontier'
          end
      end
  end.

End Engine.

Arguments Static {State} src dst.
Arguments Conditional {State} src router mapping.

(** ** Messages and Python accessors *)

Inductive message_type : Type :=
| human
| ai
| function.

Record BaseMessage : Type := {
  type : message_type;
  content : string;
  name : option string;
  additional_kwargs : gmap string (gmap string string)
}.

Definition HumanMessage (content : string) : BaseMessage :=
  {| type := human; content := content; name := None; additional_kwargs := ∅ |}.

Definition AIMessage (content : string) : BaseMessage :=
  {| type := ai; content := content; name := None; additional_kwargs := ∅ |}.

Definition FunctionMessage (content name : string) : BaseMessage :=
  {| type := function; content := content; name := Some name; additional_kwargs := ∅ |}.

(** [l[-1]] *)
Fixpoint py_last {A} (l : list A) : result exn A :=
  match l with
  | [] => Err IndexError
  | [x] => Ok x
  | _ :: l' => py_last l'
  end.

(** [l[0]] *)
Definition py_first {A} (l : list A) : result exn A :=
  match l with
  | [] => Err IndexError
  | x :: _ => Ok x
  end.

(** [d[k]] on a dict *)
Definition getitem {V} (k : string) (d : gmap string V) : result exn V :=
  match d !! k with
  | Some v => Ok v
  | None => Err (KeyError k)
  end.

(** [state[k]] on a state field that may not have been written yet *)
Definition getfield {V} (k : string) (field : option V) : result exn V :=
  match field with
  | Some v => Ok v
  | None => Err (KeyError k)
  end.

(** What the caller of a graph sees when the run aborts. *)
Definition raised (e : error) : exn :=
  match e with
  | NodeExecutionFailure _ x => x
  | RouterFailure _ x => x
  | RoutingError n _ => KeyError n
  | UnknownNode n => KeyError n
  | RecursionLimitExceeded _ => ExternalError "GraphRecursionError"
  end.

(** Modelled from the spec: batched execution of a unit over a sequence of
    independent inputs ([abatch] of the runnable interface). Results are
    collected positionally; with [return_exceptions] a failing item is kept
    as its exception, without it the first failure aborts the batch. *)
Definition abatch {A B} (unit : A -> result exn B) (inputs : list A)
    (return_exceptions : bool) : result exn (list (result exn B)) :=
  if return_exceptions then Ok (map unit inputs)
  else outs <-! collect unit inputs; Ok (map Ok outs).

(** [str(out)] on an item of a batch *)
Definition str_out (out : result exn string) : string :=
  match out with
  | Ok s => s
  | Err e => str_exn e
  end.

(** ** The chat executor (state-model-with-persistence) *)

Module ChatExecutor.

Record AgentState : Type := { messages : list BaseMessage }.

(** A partial update of [AgentState]: a dict that may hold [messages]. *)
Record AgentUpdate : Type := { upd_messages : option (list BaseMessage) }.

Definition empty : AgentState := {| messages := [] |}.

(** [messages] is annotated with [operator.add]. *)
Definition merge (current : AgentState) (partial : AgentUpdate) : AgentState :=
  {| messages := merge_append (messages current) (upd_messages partial) |}.

Record ToolInvocation (J : Type) : Type := { tool : string; tool_input : J }.
Arguments tool {J} _.
Arguments tool_input {J} _.

(** The external collaborators of the notebook: the chat model, the JSON
    parser and the tool executor, and the recursion limit the engine
    applies when the caller configures none. *)
Record Collaborators : Type := {
  JSON : Type;
  model_invoke : list BaseMessage -> result exn BaseMessage;
  json_loads : string -> result exn JSON;
  tool_executor_invoke : ToolInvocation JSON -> result exn string;
  default_recursion_limit : nat
}.

Section Nodes.
Variable env : Collaborators.

Definition should_continue (state : AgentState) : result exn outcome_key :=
  let messages := messages state in
  last_message <-! py_last messages;
  match additional_kwargs last_message !! "function_call" with
  | None => Ok (KStr "end")
  | Some _ => Ok (KStr "continue")
  end.

Definition call_model (state : AgentState) : result exn AgentUpdate :=
  let messages := messages state in
  response <-! model_invoke env messages;
  Ok {| upd_messages := Some [response] |}.

Definition call_tool (state : AgentState) : result exn AgentUpdate :=
  let messages := messages state in
  last_message <-! py_last messages;
  function_call <-! getitem "function_call" (additional_kwargs last_message);
  tool_name <-! getitem "name" function_call;
  function_call' <-! getitem "function_call" (additional_kwargs last_message);
  arguments <-! getitem "arguments" function_call';
  parsed <-! json_loads env arguments;
  let action := {| tool := tool_name; tool_input := parsed |} in
  response <-! tool_executor_invoke env action;
  let function_message := FunctionMessage response (tool action) in
  Ok {| upd_messages := Some [function_message] |}.

Definition workflow : Graph :=
  {| nodes := [("agent", call_model); ("action", call_tool)];
     edges := [Conditional "agent" should_continue
                 [(KStr "continue", Goto "action"); (KStr "end", END)];
               Static "action" (Goto "agent")];
     entry_point := "agent";
     checkpointer := true |}.

(** [app = workflow.compile(checkpointer=memory)] *)
Definition app : Graph := workflow.

(** [app.stream(inputs, thread)] with [thread_id] taken from [thread]. *)
Definition stream (memory : gmap string (list Checkpoint)) (inputs : AgentUpdate)
    (thread_id : string) : Run :=
  invoke empty merge app memory thread_id inputs (default_recursion_limit env).

(** The configurations (state, frontier) an execution of [app] passes
    through: an invocation enters at the entry point, on the state
    restored for the thread merged with the input, and each superstep
    leads to the next configuration. *)
Inductive reachable : AgentState -> list string -> Prop :=
| reachable_entry (s : AgentState) : reachable s [entry_point app]
| reachable_step (s s' : AgentState) (fr fr' : list string) (ev : Event) :
    reachable s fr ->
    superstep merge app s fr = Ok (s', fr', ev) ->
    reachable s' fr'.

End Nodes.

(** The frontier the conditional edge of [agent] leads to when the last
    message is [m]. *)
Definition next_of (m : BaseMessage) : list string :=
  match additional_kwargs m !! "function_call" with
  | Some _ => ["action"]
  | None => []
  end.

(** The messages the events of a stream carry, in order. *)
Definition event_messages (evs : list (Event (Update := AgentUpdate))) : list BaseMessage :=
  concat (map (fun ev : Event =>
                 concat (map (fun o => default [] (upd_messages (snd o))) ev)) evs).

(** A message of the chat model that asks for a tool call. *)
Definition tool_call_message : BaseMessage :=
  {| type := ai; content := ""; name := None;
     additional_kwargs :=
       {[ "function_call" :=
            <["name" := "tavily_answer"]> {[ "arguments" := "{}" ]} ]} |}.

(** Scripted collaborators: the model asks for a tool call after a human
    message and answers after anything else; the tool always answers. *)
Definition scripted : Collaborators :=
  {| JSON := string;
     model_invoke := fun messages =>
       last_message <-! py_last messages;
       match type last_message with
       | human => Ok tool_call_message
       | _ => Ok (AIMessage "answer")
       end;
     json_loads := fun s => Ok s;
     tool_executor_invoke := fun action => Ok "observation";
     default_recursion_limit := 25 |}.

End ChatExecutor.

(** ** Plan and execute *)

Module PlanAndExecute.

(** The overall state. [input], [plan] and [response] are replaced;
    [messages] and [past_steps] are annotated with [operator.add]. *)
Record PlanExecute : Type := {
  input : option string;
  messages : list BaseMessage;
  plan : option (list string);
  past_steps : list (string * string);
  response : option string
}.

(** A partial update of [PlanExecute]: a dict over a subset of its keys. *)
Record PlanExecuteUpdate : Type := {
  upd_input : option string;
  upd_messages : option (list BaseMessage);
  upd_plan : option (list string);
  upd_past_steps : option (list (string * string));
  upd_response : option string
}.

Definition empty : PlanExecute :=
  {| input := None; messages := []; plan := None; past_steps := []; response := None |}.

Definition merge (current : PlanExecute) (partial : PlanExecuteUpdate) : PlanExecute :=
  {| input := merge_replace (input current) (upd_input partial);
     messages := merge_append (messages current) (upd_messages partial);
     plan := merge_replace (plan current) (upd_plan partial);
     past_steps := merge_append (past_steps current) (upd_past_steps partial);
     response := merge_replace (response current) (upd_response partial) |}.

Record Plan : Type := { steps : list string }.

(** What the replanner runnable returns: one of the four bound models. *)
Inductive ReplannerOutput : Type :=
| OutPlan (p : Plan)
| OutResponse (response : string)
| OutQuestionToUser (question : string)
| OutImpossiblePlanResponse (impossibility : string).

Record AgentAction : Type := { tool : string; tool_input : string; log : string }.

Record AgentFinish : Type := { return_values : gmap string string; finish_log : string }.

(** [Union[AgentAction, AgentFinish, None]] *)
Inductive AgentStep : Type :=
| Action (a : AgentAction)
| Finish (f : AgentFinish)
| NoStep.

(** The value of [agent_outcome]: one step, or a list of them. *)
Inductive AgentOutcome : Type :=
| One (x : AgentStep)
| Several (l : list AgentStep).

(** State for the sub-graph; [intermediate_steps] is annotated with
    [operator.add]. *)
Record ExecAgentState : Type := {
  exec_input : option string;
  chat_history : option (list BaseMessage);
  agent_outcome : option AgentOutcome;
  intermediate_steps : list (AgentStep * string)
}.

Record ExecAgentUpdate : Type := {
  upd_exec_input : option string;
  upd_chat_history : option (list BaseMessage);
  upd_agent_outcome : option AgentOutcome;
  upd_intermediate_steps : option (list (AgentStep * string))
}.

Definition exec_empty : ExecAgentState :=
  {| exec_input := None; chat_history := None; agent_outcome := None;
     intermediate_steps := [] |}.

Definition exec_merge (current : ExecAgentState) (partial : ExecAgentUpdate)
    : ExecAgentState :=
  {| exec_input := merge_replace (exec_input current) (upd_exec_input partial);
     chat_history := merge_replace (chat_history current) (upd_chat_history partial);
     agent_outcome := merge_replace (agent_outcome current) (upd_agent_outcome partial);
     intermediate_steps :=
       merge_append (intermediate_steps current) (upd_intermediate_steps partial) |}.

(** The external collaborators of the notebook: the planner and replanner
    runnables, the agent runnable of the sub-graph, the tool executor, and
    the recursion limit the engine applies when the caller configures
    none. *)
Record Collaborators : Type := {
  planner_ainvoke : string -> list BaseMessage -> result exn Plan;
  replanner_ainvoke : PlanExecute -> result exn ReplannerOutput;
  agent_runnable_ainvoke : ExecAgentState -> result exn AgentOutcome;
  tool_executor_invoke : AgentStep -> result exn string;
  default_recursion_limit : nat
}.

Section Nodes.
Variable env : Collaborators.

(** *** Subgraph for execution *)

Definition should_continue (data : ExecAgentState) : result exn outcome_key :=
  outcome <-! getfield "agent_outcome" (agent_outcome data);
  match outcome with
  | One (Finish _) => Ok (KStr "end")
  | _ => Ok (KStr "continue")
  end.

Definition run_agent (data : ExecAgentState) : result exn ExecAgentUpdate :=
  agent_outcome <-! agent_runnable_ainvoke env data;
  Ok {| upd_exec_input := None; upd_chat_history := None;
        upd_agent_outcome := Some agent_outcome; upd_intermediate_steps := None |}.

Definition execute_tools (data : ExecAgentState) : result exn ExecAgentUpdate :=
  agent_action <-! getfield "agent_outcome" (agent_outcome data);
  let agent_action :=
    match agent_action with
    | Several l => l
    | One x => [x]
    end in
  output <-! abatch (tool_executor_invoke env) agent_action true;
  Ok {| upd_exec_input := None; upd_chat_history := None; upd_agent_outcome := None;
        upd_intermediate_steps :=
          Some (map (fun p => (fst p, str_out (snd p))) (combine agent_action output)) |}.

Definition subworkflow : Graph :=
  {| nodes := [("subagent", run_agent); ("action", execute_tools)];
     edges := [Conditional "subagent" should_continue
                 [(KStr "continue", Goto "action"); (KStr "end", END)];
               Static "action" (Goto "subagent")];
     entry_point := "subagent";
     checkpointer := false |}.

(** [executor_agent = subworkflow.compile()] *)
Definition executor_agent : Graph := subworkflow.

(** [executor_agent.ainvoke(inputs)]: the final state of the run, or the
    exception that aborted it. *)
Definition executor_agent_ainvoke (inputs : ExecAgentUpdate) : result exn ExecAgentState :=
  let run := invoke exec_empty exec_merge executor_agent ∅ "" inputs
               (default_recursion_limit env) in
  match run_status run with
  | Finished => Ok (run_state run)
  | Aborted e => Err (raised e)
  end.

(** *** The main nodes *)

Definition plan_step (state : PlanExecute) : result exn PlanExecuteUpdate :=
  objective <-! getfield "input" (input state);
  plan <-! planner_ainvoke env objective (messages state);
  Ok {| upd_input := None; upd_messages := None; upd_plan := Some (steps plan);
        upd_past_steps := None; upd_response := Some "" |}.

Definition execute_step (state : PlanExecute) : result exn PlanExecuteUpdate :=
  plan <-! getfield "plan" (plan state);
  task <-! py_first plan;
  agent_response <-! executor_agent_ainvoke
    {| upd_exec_input := Some task; upd_chat_history := Some (messages state);
       upd_agent_outcome := None; upd_intermediate_steps := None |};
  outcome <-! getfield "agent_outcome" (agent_outcome agent_response);
  return_values <-! match outcome with
                    | One (Finish f) => Ok (return_values f)
                    | One (Action _) => Err (no_attribute "AgentAction" "return_values")
                    | One NoStep => Err (no_attribute "NoneType" "return_values")
                    | Several _ => Err (no_attribute "list" "return_values")
                    end;
  output <-! getitem "output" return_values;
  Ok {| upd_input := None; upd_messages := None; upd_plan := None;
        upd_past_steps := Some [(task, output)]; upd_response := None |}.

Definition replan_step (state : PlanExecute) : result exn PlanExecuteUpdate :=
  output <-! replanner_ainvoke env state;
  match output with
  | OutResponse r =>
      Ok {| upd_input := None; upd_messages := Some [AIMessage r]; upd_plan := None;
            upd_past_steps := None; upd_response := Some r |}
  | OutQuestionToUser q =>
      Ok {| upd_input := None; upd_messages := Some [AIMessage q]; upd_plan := None;
            upd_past_steps := None; upd_response := Some q |}
  | OutImpossiblePlanResponse i =>
      Ok {| upd_input := None; upd_messages := Some [AIMessage i]; upd_plan := None;
            upd_past_steps := None; upd_response := Some i |}
  | OutPlan p =>
      Ok {| upd_input := None; upd_messages := None; upd_plan := Some (steps p);
            upd_past_steps := None; upd_response := None |}
  end.

Definition should_end (state : PlanExecute) : result exn outcome_key :=
  match response state with
  | Some r => if String.eqb r "" then Ok (KBool false) else Ok (KBool true)
  | None => Ok (KBool false)
  end.

Definition workflow : Graph :=
  {| nodes := [("planner", plan_step); ("agent", execute_step); ("replan", replan_step)];
     edges := [Static "planner" (Goto "agent");
               Static "agent" (Goto "replan");
               Conditional "replan" should_end
                 [(KBool true, END); (KBool false, Goto "agent")]];
     entry_point := "planner";
     checkpointer := true |}.

(** [app = workflow.compile(checkpointer=memory)] *)
Definition app : Graph := workflow.

(** [app.astream(inputs, config=config)] *)
Definition astream (memory : gmap string (list Checkpoint)) (inputs : PlanExecuteUpdate)
    (config : RunnableConfig) : Run :=
  invoke_config empty merge app memory inputs config (default_recursion_limit env).

(** [run_app]: the run the function streams; what it prints is left
    out. The config holds the [configurable] dict alone, with the thread id
    and the recursion limit in it. *)
Definition run_app (memory : gmap string (list Checkpoint)) (input : string)
    (thread_id : string) (recursion_limit : nat) : Run :=
  let config :=
    {| recursion_limit := None;
       configurable := {| thread_id := thread_id;
                          other_keys := {[ "recursion_limit" := recursion_limit ]} |} |} in
  let inputs := {| upd_input := Some input; upd_messages := None; upd_plan := None;
                   upd_past_steps := None; upd_response := None |} in
  astream memory inputs config.

(** A session: calls of [run_app] one after the other on the same
    checkpointer; each call is (input, thread id, recursion limit). *)
Fixpoint run_apps (calls : list (string * string * nat))
    (memory : gmap string (list Checkpoint)) : gmap string (list Checkpoint) :=
  match calls with
  | [] => memory
  | (input, thread_id, recursion_limit) :: calls' =>
      run_apps calls' (run_store (run_app memory input thread_id recursion_limit))
  end.

(** The configurations (state, frontier) an execution of [app] passes
    through. *)
Inductive reachable : PlanExecute -> list string -> Prop :=
| reachable_entry (s : PlanExecute) : reachable s [entry_point app]
| reachable_step (s s' : PlanExecute) (fr fr' : list string) (ev : Event) :
    reachable s fr ->
    superstep merge app s fr = Ok (s', fr', ev) ->
    reachable s' fr'.

End Nodes.

(** The inputs [execute_tools] hands to the tool executor. *)
Definition batch_inputs (outcome : AgentOutcome) : list AgentStep :=
  match outcome with
  | Several l => l
  | One x => [x]
  end.

(** The update [execute_step] returns for a task and its output. *)
Definition past_step_update (task output : string) : PlanExecuteUpdate :=
  {| upd_input := None; upd_messages := None; upd_plan := None;
     upd_past_steps := Some [(task, output)]; upd_response := None |}.

(** The projection of the parent state [execute_step] hands to the
    sub-graph. *)
Definition projected_input (task : string) (state : PlanExecute) : ExecAgentUpdate :=
  {| upd_exec_input := Some task; upd_chat_history := Some (messages state);
     upd_agent_outcome := None; upd_intermediate_steps := None |}.

(** A message built by [AIMessage(content=...)]. *)
Definition ai_produced (m : BaseMessage) : Prop := exists c, m = AIMessage c.

Definition ai_only (s : PlanExecute) : Prop := Forall ai_produced (messages s).

Definition store_ai_only (st : gmap string (list (Checkpoint (State := PlanExecute)))) : Prop :=
  forall thread_id cks,
    st !! thread_id = Some cks -> Forall (fun ck => ai_only (state_snapshot ck)) cks.

(** What [run_app] prints: the value of an event, or the closing line with
    the final output. *)
Inductive printed : Type :=
| printed_value (v : PlanExecuteUpdate)
| printed_end (response : string).

(** The body of the inner loop of [run_app] on one item of an event. *)
Definition print_item (item : string * PlanExecuteUpdate) : list printed :=
  let '(k, v) := item in
  if String.eqb k "__end__" then []
  else
    printed_value v ::
      match upd_response v with
      | Some r => if String.eqb r "" then [] else [printed_end r]
      | None => []
      end.

(** Everything the two loops of [run_app] print over the streamed events. *)
Definition run_app_prints (events : list (Event (Update := PlanExecuteUpdate))) : list printed :=
  flat_map (flat_map print_item) events.

Definition is_printed_end (p : printed) : bool :=
  match p with
  | printed_end _ => true
  | printed_value _ => false
  end.

Definition search (query : string) : AgentAction :=
  {| tool := "tavily_answer"; tool_input := query; log := "" |}.


Definition finish (output : string) : AgentFinish :=
  {| return_values := {[ "output" := output ]}; finish_log := "" |}.

(** Scripted collaborators: a one-step plan, an agent that searches once
    and then finishes, a replanner that answers, and a tool executor that
    only knows the search tool. *)
Definition scripted : Collaborators :=
  {| planner_ainvoke := fun objective chat_history => Ok {| steps := ["look it up"] |};
     replanner_ainvoke := fun state => Ok (OutResponse "final answer");
     agent_runnable_ainvoke := fun data =>
       match intermediate_steps data with
       | [] => Ok (One (Action (search "q")))
       | _ => Ok (One (Finish (finish "found")))
       end;
     tool_executor_invoke := fun step =>
       match step with
       | Action a =>
           if String.eqb (tool a) "tavily_answer" then Ok "observation"
           else Err (ExternalError "missing_tool is not a valid tool")
       | Finish _ => Err (no_attribute "AgentFinish" "tool")
       | NoStep => Err (no_attribute "NoneType" "tool")
       end;
     default_recursion_limit := 25 |}.

(** Collaborators with a replanner that always returns a further plan. *)
Definition replanning_forever : Collaborators :=
  {| planner_ainvoke := planner_ainvoke scripted;
     replanner_ainvoke := fun state => Ok (OutPlan {| steps := ["look again"] |});
     agent_runnable_ainvoke := agent_runnable_ainvoke scripted;
     tool_executor_invoke := tool_executor_invoke scripted;
     default_recursion_limit := 25 |}.

(** Collaborators with a planner that returns a plan without steps. *)
Definition planning_nothing : Collaborators :=
  {| planner_ainvoke := fun objective chat_history => Ok {| steps := [] |};
     replanner_ainvoke := replanner_ainvoke scripted;
     agent_runnable_ainvoke := agent_runnable_ainvoke scripted;
     tool_executor_invoke := tool_executor_invoke scripted;
     default_recursion_limit := 25 |}.

End PlanAndExecute.

(** * Properties *)

(** ** Rendering of exceptions *)



Example py_repr_key : py_repr "function_call" = "'function_call'".
Proof. reflexivity. Qed.

(** A single quote in the string moves [repr] to double quotes; with both
    kinds of quote the single one is escaped. *)
Example py_repr_single_quote :
  py_repr "it's" = String double_quote ("it's" ++ String double_quote "")
  /\ py_repr (String double_quote "it's")
     = String single_quote
         (String double_quote ("it" ++ String backslash ("'s" ++ String single_quote ""))).
Proof. split; reflexivity. Qed.

Example py_repr_control :
  py_repr (String (ascii_of_nat 10) (String (ascii_of_nat 1) (String backslash "")))
  = String single_quote
      (String backslash
         ("n" ++ String backslash ("x01" ++ String backslash (String backslash "'")))).
Proof. reflexivity. Qed.


(** ** Reducers *)

Lemma merge_append_nil_l {A} (l : list A) : merge_append [] (Some l) = l.
Proof. reflexivity. Qed.

Lemma merge_append_nil_r {A} (l : list A) : merge_append l (Some []) = l.
Proof. simpl. apply app_nil_r. Qed.

Lemma merge_append_default {A} (l : list A) (p : option (list A)) :
  merge_append l p = l ++ default [] p.
Proof. destruct p; simpl; [reflexivity | symmetry; apply app_nil_r]. Qed.

Lemma fold_append_field {S U A} (merge : S -> U -> S) (field : S -> list A)
    (part : U -> option (list A)) :
  (forall s u, field (merge s u) = merge_append (field s) (part u)) ->
  forall us s,
    field (fold_left merge us s) = field s ++ concat (map (fun u => default [] (part u)) us).
Proof.
  intros Hm us. induction us as [|u us IH]; intros s; simpl.
  - symmetry. apply app_nil_r.
  - rewrite IH, Hm, merge_append_default, <- app_assoc. reflexivity.
Qed.

(** C1: the merge of the two declared schemas sets a replace field
    ([input], [plan], [response]) to the update's value when the update holds
    it and keeps the current value otherwise; it sets an append field
    ([messages], [past_steps]) to the current sequence followed by the
    update's sequence when the update holds it and keeps the current sequence
    otherwise; the empty sequence is the identity; and merging any sequence
    of updates one after the other leaves in an append field the current
    sequence followed by the ordered concatenation of the updates'
    sequences. *)
Theorem merge_policies :
  (forall (current : PlanAndExecute.PlanExecute) (partial : PlanAndExecute.PlanExecuteUpdate),
      let next := PlanAndExecute.merge current partial in
      PlanAndExecute.input next =
        match PlanAndExecute.upd_input partial with
        | Some v => Some v | None => PlanAndExecute.input current end
      /\ PlanAndExecute.plan next =
        match PlanAndExecute.upd_plan partial with
        | Some v => Some v | None => PlanAndExecute.plan current end
      /\ PlanAndExecute.response next =
        match PlanAndExecute.upd_response partial with
        | Some v => Some v | None => PlanAndExecute.response current end
      /\ PlanAndExecute.messages next =
        match PlanAndExecute.upd_messages partial with
        | Some l => PlanAndExecute.messages current ++ l
        | None => PlanAndExecute.messages current end
      /\ PlanAndExecute.past_steps next =
        match PlanAndExecute.upd_past_steps partial with
        | Some l => PlanAndExecute.past_steps current ++ l
        | None => PlanAndExecute.past_steps current end)
  /\ (forall (current : ChatExecutor.AgentState) (partial : ChatExecutor.AgentUpdate),
      ChatExecutor.messages (ChatExecutor.merge current partial) =
        match ChatExecutor.upd_messages partial with
        | Some l => ChatExecutor.messages current ++ l
        | None => ChatExecutor.messages current end)
  /\ (forall l : list BaseMessage,
      ChatExecutor.messages
        (ChatExecutor.merge ChatExecutor.empty {| ChatExecutor.upd_messages := Some l |}) = l
      /\ ChatExecutor.merge {| ChatExecutor.messages := l |}
           {| ChatExecutor.upd_messages := Some [] |} = {| ChatExecutor.messages := l |})
  /\ (forall (updates : list ChatExecutor.AgentUpdate) (current : ChatExecutor.AgentState),
      ChatExecutor.messages (fold_left ChatExecutor.merge updates current) =
        ChatExecutor.messages current
        ++ concat (map (fun u => default [] (ChatExecutor.upd_messages u)) updates))
  /\ (forall (updates : list PlanAndExecute.PlanExecuteUpdate)
             (current : PlanAndExecute.PlanExecute),
      PlanAndExecute.messages (fold_left PlanAndExecute.merge updates current) =
        PlanAndExecute.messages current
        ++ concat (map (fun u => default [] (PlanAndExecute.upd_messages u)) updates)
      /\ PlanAndExecute.past_steps (fold_left PlanAndExecute.merge updates current) =
        PlanAndExecute.past_steps current
        ++ concat (map (fun u => default [] (PlanAndExecute.upd_past_steps u)) updates))
  /\ (forall (updates : list (list BaseMessage)),
      ChatExecutor.messages
        (fold_left ChatExecutor.merge
           (map (fun l => {| ChatExecutor.upd_messages := Some l |}) updates)
           ChatExecutor.empty) = concat updates).
Proof.
  split; [|split; [|split; [|split; [|split]]]].
  - intros current partial. simpl. repeat split.
  - intros current partial. reflexivity.
  - intros l. unfold ChatExecutor.merge.
    cbn [ChatExecutor.messages ChatExecutor.upd_messages ChatExecutor.empty].
    rewrite merge_append_nil_l, merge_append_nil_r. split; reflexivity.
  - intros updates current.
    apply (fold_append_field ChatExecutor.merge ChatExecutor.messages
             ChatExecutor.upd_messages). reflexivity.
  - intros updates current. split.
    + apply (fold_append_field PlanAndExecute.merge PlanAndExecute.messages
               PlanAndExecute.upd_messages). reflexivity.
    + apply (fold_append_field PlanAndExecute.merge PlanAndExecute.past_steps
               PlanAndExecute.upd_past_steps). reflexivity.
  - intros updates.
    rewrite (fold_append_field ChatExecutor.merge ChatExecutor.messages
               ChatExecutor.upd_messages) by reflexivity.
    simpl. rewrite map_map. simpl. rewrite map_id. reflexivity.
Qed.

(** ** The engine *)

Lemma py_last_snoc {A} (l : list A) (x : A) : py_last (l ++ [x]) = Ok x.
Proof.
  induction l as [|y l IH]; simpl; [reflexivity|].
  destruct (l ++ [x]) eqn:E; [destruct l; discriminate | exact IH].
Qed.

Section EngineFacts.
Context {State Update : Type}.
Variable empty_state : State.
Variable merge : State -> Update -> State.

Lemma superstep_nil (g : Graph) (s : State) :
  superstep merge g s [] = Ok (s, [], []).
Proof. reflexivity. Qed.

(** What a successful superstep is made of. *)
Lemma superstep_inv (g : Graph) (s s' : State) (fr fr' : list string) (outs : Event) :
  superstep merge g s fr = Ok (s', fr', outs) ->
  collect (run_node g s) fr = Ok outs
  /\ s' = merge_all merge s outs
  /\ advance_frontier g s' fr = Ok fr'.
Proof.
  unfold superstep.
  destruct (collect (run_node g s) fr) as [o|e] eqn:E1; simpl; [|discriminate].
  destruct (advance_frontier g (merge_all merge s o) fr) as [f|e] eqn:E2; simpl;
    [|discriminate].
  intros [= <- <- <-]. auto.
Qed.

(** The loop only ever adds events. *)
Lemma loop_events (g : Graph) (tid : string) (limit : nat) :
  forall taken base s fr st evs,
    exists new,
      run_events (superstep_loop merge g tid limit taken base s fr st evs) = evs ++ new
      /\ run_state (superstep_loop merge g tid limit taken base s fr st evs)
         = fold_left (merge_all merge) new s.
Proof.
  induction limit as [|limit IH]; intros taken base s fr st evs.
  - exists []. destruct fr; simpl; rewrite app_nil_r; auto.
  - destruct fr as [|n fr].
    + exists []. simpl. rewrite app_nil_r. auto.
    + cbn [superstep_loop].
      destruct (superstep merge g s (n :: fr)) as [[[s' fr'] ev]|e] eqn:E.
      * destruct (IH (S taken) base s' fr' (commit g tid
                   {| step_index := base + S taken; state_snapshot := s';
                      next_frontier := fr' |} st) (evs ++ [ev])) as [new [H1 H2]].
        exists (ev :: new). rewrite H1, H2, <- app_assoc. simpl. split; [reflexivity|].
        apply superstep_inv in E. destruct E as (_ & -> & _). reflexivity.
      * exists []. simpl. rewrite app_nil_r. auto.
Qed.

Lemma load_save (tid : string) (ck : Checkpoint (State := State))
    (st : gmap string (list Checkpoint)) :
  load tid (save tid ck st) = Some ck.
Proof. unfold load, save. rewrite lookup_insert_eq. reflexivity. Qed.

(** A run that commits nothing leaves the store alone; a run that commits
    leaves, as latest checkpoint of its thread, the state it ended in. *)
Lemma loop_latest (g : Graph) (tid : string) (limit : nat) :
  checkpointer g = true ->
  forall taken base s fr st evs,
    let run := superstep_loop merge g tid limit taken base s fr st evs in
    (run_events run = evs /\ run_store run = st /\ run_state run = s
     /\ (run_status run = Finished -> fr = []))
    \/ (exists ck, load tid (run_store run) = Some ck
                   /\ state_snapshot ck = run_state run
                   /\ step_index ck = base + taken + (length (run_events run) - length evs)
                   /\ (run_status run = Finished -> next_frontier ck = [])).
Proof.
  intros Hck. induction limit as [|limit IH]; intros taken base s fr st evs.
  - left. destruct fr; simpl; repeat split; auto; discriminate.
  - destruct fr as [|n fr]; [left; simpl; auto|].
    cbn [superstep_loop].
    destruct (superstep merge g s (n :: fr)) as [[[s' fr'] ev]|e] eqn:E;
      [|left; simpl; repeat split; auto; discriminate].
    right. cbv zeta.
    set (ck := {| step_index := base + S taken; state_snapshot := s';
                  next_frontier := fr' |}).
    specialize (IH (S taken) base s' fr' (commit g tid ck st) (evs ++ [ev])).
    cbv zeta in IH. destruct IH as [(H1 & H2 & H3 & H4) | (ck' & H1 & H2 & H3 & H4)].
    + exists ck. rewrite H1, H2, H3. split; [|split; [reflexivity|split]].
      * unfold commit. rewrite Hck. apply load_save.
      * rewrite length_app. simpl. lia.
      * exact H4.
    + exists ck'. rewrite H1. repeat split; auto.
      destruct (loop_events g tid limit (S taken) base s' fr' (commit g tid ck st)
                  (evs ++ [ev])) as [new [Hev _]].
      rewrite H3, Hev, !length_app. simpl. lia.
Qed.

Lemma collect_err {A B} (f : A -> result error B) (l : list A) (e : error) :
  (forall a e', f a = Err e' -> engine_raised e') ->
  collect f l = Err e -> engine_raised e.
Proof.
  intros Hf. induction l as [|a l IH]; simpl; [discriminate|].
  destruct (f a) as [b|e'] eqn:Ea; simpl.
  - destruct (collect f l) as [bs|e'']; simpl; [discriminate|].
    intros [= <-]. apply IH. reflexivity.
  - intros [= <-]. apply (Hf a). exact Ea.
Qed.

(** Only the loop raises the recursion error. *)
Lemma superstep_err (g : Graph) (s : State) (fr : list string) (e : error) :
  superstep merge g s fr = Err e -> engine_raised e.
Proof.
  unfold superstep.
  destruct (collect (run_node g s) fr) as [outs|e1] eqn:E1; simpl.
  - destruct (advance_frontier g (merge_all merge s outs) fr) as [fr'|e2] eqn:E2; simpl;
      [discriminate|].
    intros [= <-]. unfold advance_frontier in E2.
    destruct (collect (route_node g (merge_all merge s outs)) fr) as [tss|e3] eqn:E3;
      simpl in E2; [discriminate|].
    injection E2 as ->. revert E3. apply collect_err.
    intros n e'. unfold route_node.
    destruct (collect (route_edge (merge_all merge s outs) n) (edges g)) as [ts|e4] eqn:E4;
      simpl; [discriminate|].
    intros [= <-]. revert E4. apply collect_err.
    intros ed e'. unfold route_edge. destruct ed as [src dst|src router mapping].
    + destruct (String.eqb src n); discriminate.
    + destruct (String.eqb src n); [|discriminate].
      destruct (router (merge_all merge s outs)); [|intros [= <-]; exact I].
      destruct (lookup_outcome a mapping); [discriminate|]. intros [= <-]. exact I.
  - intros [= <-]. revert E1. apply collect_err.
    intros n e'. unfold run_node. destruct (assoc n (nodes g)) as [body|].
    + destruct (body s); [discriminate|]. intros [= <-]. exact I.
    + intros [= <-]. exact I.
Qed.

(** The recursion error is raised with the step after the limit, after as
    many supersteps as the limit allows. *)
Lemma loop_abort_step (g : Graph) (tid : string) (limit : nat) :
  forall taken base s fr st evs k,
    let run := superstep_loop merge g tid limit taken base s fr st evs in
    run_status run = Aborted (RecursionLimitExceeded k) ->
    k = S (taken + limit) /\ length (run_events run) = length evs + limit.
Proof.
  induction limit as [|limit IH]; intros taken base s fr st evs k; cbv zeta.
  - destruct fr; simpl; [discriminate|]. intros [= <-]. split; lia.
  - destruct fr as [|n fr]; [simpl; discriminate|]. cbn [superstep_loop].
    destruct (superstep merge g s (n :: fr)) as [[[s' fr'] ev]|e] eqn:E.
    + intros H. apply IH in H. destruct H as [-> H]. rewrite H, length_app. simpl.
      split; lia.
    + simpl. intros [= ->]. apply superstep_err in E. destruct E.
Qed.

Lemma save_history (tid : string) (ck : Checkpoint (State := State))
    (st : gmap string (list Checkpoint)) :
  default [] (save tid ck st !! tid) = ck :: default [] (st !! tid).
Proof. unfold save. rewrite lookup_insert_eq. reflexivity. Qed.

(** A run whose frontier stays non-empty for [limit] supersteps. *)
Lemma loop_limit (g : Graph) (tid : string) (limit : nat) :
  forall taken base s fr st evs,
    (forall k, k <= limit ->
       exists s' fr', after_supersteps merge g k s fr = Ok (s', fr') /\ fr' <> []) ->
    let run := superstep_loop merge g tid limit taken base s fr st evs in
    exists sN frN new,
      after_supersteps merge g limit s fr = Ok (sN, frN)
      /\ frN <> []
      /\ run_status run = Aborted (RecursionLimitExceeded (S (taken + limit)))
      /\ run_state run = sN
      /\ run_events run = evs ++ new
      /\ length new = limit
      /\ (checkpointer g = true ->
          exists committed,
            default [] (run_store run !! tid) = committed ++ default [] (st !! tid)
            /\ length committed = limit
            /\ (0 < limit ->
                load tid (run_store run) =
                  Some {| step_index := base + taken + limit; state_snapshot := sN;
                          next_frontier := frN |})).
Proof.
  induction limit as [|limit IH]; intros taken base s fr st evs Hk; cbv zeta.
  - destruct (Hk 0 (le_n 0)) as (s' & fr' & [= <- <-] & Hne).
    exists s, fr, []. destruct fr as [|n fr]; [congruence|]. simpl.
    rewrite app_nil_r, Nat.add_0_r. repeat split; auto.
    intros _. exists []. repeat split; auto. lia.
  - destruct (Hk 0 (Nat.le_0_l _)) as (s0 & fr0 & [= <- <-] & Hne).
    destruct fr as [|n fr]; [congruence|]. cbn [superstep_loop after_supersteps].
    destruct (Hk 1 ltac:(lia)) as (s1 & fr1 & H1 & _). simpl in H1.
    destruct (superstep merge g s (n :: fr)) as [[[s' fr'] ev]|e] eqn:E; [|discriminate].
    set (ck := {| step_index := base + S taken; state_snapshot := s';
                  next_frontier := fr' |}).
    destruct (IH (S taken) base s' fr' (commit g tid ck st) (evs ++ [ev]))
      as (sN & frN & new & Ha & Hfr & Hs & Hst & Hev & Hlen & Hck).
    { intros k Hle. destruct (Hk (S k) ltac:(lia)) as (s2 & fr2 & H2 & Hne2).
      simpl in H2. rewrite E in H2. eauto. }
    exists sN, frN, (ev :: new). rewrite Ha, Hs, Hst, Hev, <- app_assoc. simpl.
    split; [reflexivity|]. split; [exact Hfr|]. split; [do 3 f_equal; lia|].
    split; [reflexivity|]. split; [reflexivity|]. split; [simpl; lia|].
    intros Hc. destruct (Hck Hc) as (committed & Hh & Hl & Hload).
    assert (Hcm : commit g tid ck st = save tid ck st)
      by (unfold commit; rewrite Hc; reflexivity).
    rewrite Hcm in *. rewrite save_history in Hh.
    exists (committed ++ [ck]). rewrite <- app_assoc. simpl. split; [exact Hh|].
    split; [rewrite length_app; simpl; lia|]. intros _.
    destruct limit as [|limit'].
    + simpl in Ha. injection Ha as <- <-.
      destruct fr' as [|n' fr'']; [congruence|]. simpl.
      rewrite load_save. subst ck. do 2 f_equal. lia.
    + rewrite Hload by lia. do 2 f_equal. lia.
Qed.

(** The recursion guard of the engine: an invocation whose frontier is still
    non-empty after each of the first [N] supersteps runs exactly [N]
    supersteps under recursion limit [N] and aborts with the recursion error
    raised for step [N + 1]; the checkpointer holds exactly [N] new
    checkpoints, the latest being the state after superstep [N] with its
    non-empty frontier, from which a later invocation on the thread
    restores. Whenever an invocation aborts with the recursion error, it is
    for step [N + 1], after [N] events. *)
Lemma recursion_limit_exact (g : Graph) (st : gmap string (list Checkpoint))
    (tid : string) (input : Update) (N : nat) :
  let restored := if checkpointer g then load tid st else None in
  let s0 := match restored with
            | Some ck => merge (state_snapshot ck) input
            | None => merge empty_state input
            end in
  let base := match restored with Some ck => step_index ck | None => 0 end in
  let run := invoke empty_state merge g st tid input N in
  (forall k, k <= N ->
     exists s fr, after_supersteps merge g k s0 [entry_point g] = Ok (s, fr) /\ fr <> []) ->
  (exists sN frN,
      after_supersteps merge g N s0 [entry_point g] = Ok (sN, frN)
      /\ frN <> []
      /\ run_status run = Aborted (RecursionLimitExceeded (N + 1))
      /\ run_state run = sN
      /\ length (run_events run) = N
      /\ (checkpointer g = true ->
          (exists committed,
             default [] (run_store run !! tid) = committed ++ default [] (st !! tid)
             /\ length committed = N)
          /\ (0 < N ->
              load tid (run_store run) =
                Some {| step_index := base + N; state_snapshot := sN;
                        next_frontier := frN |}
              /\ forall input' limit',
                  invoke empty_state merge g (run_store run) tid input' limit' =
                    superstep_loop merge g tid limit' 0 (base + N) (merge sN input')
                      [entry_point g] (run_store run) [])))
  /\ (forall limit k,
        run_status (invoke empty_state merge g st tid input limit)
          = Aborted (RecursionLimitExceeded k) ->
        k = limit + 1
        /\ length (run_events (invoke empty_state merge g st tid input limit)) = limit).
Proof.
  intros restored s0 base run Hk. split.
  - destruct (loop_limit g tid N 0 base s0 [entry_point g] st [] Hk)
      as (sN & frN & new & Ha & Hfr & Hs & Hst & Hev & Hlen & Hck).
    exists sN, frN. fold restored s0 base in Hs, Hst, Hev, Hck.
    change (run_status run = Aborted (RecursionLimitExceeded (S (0 + N)))) in Hs.
    change (run_state run = sN) in Hst. change (run_events run = [] ++ new) in Hev.
    split; [exact Ha|]. split; [exact Hfr|]. split; [rewrite Hs; do 2 f_equal; lia|].
    split; [exact Hst|]. split; [rewrite Hev; exact Hlen|].
    intros Hc. destruct (Hck Hc) as (committed & Hh & Hl & Hload). split.
    + exists committed. split; [exact Hh | exact Hl].
    + intros Hpos. specialize (Hload Hpos). rewrite Nat.add_0_r in Hload.
      change (load tid (run_store run) =
                Some {| step_index := base + N; state_snapshot := sN;
                        next_frontier := frN |}) in Hload.
      split; [exact Hload|]. intros input' limit'. unfold invoke at 1.
      rewrite Hc, Hload. reflexivity.
  - intros limit k H. unfold invoke in *. apply loop_abort_step in H.
    destruct H as [-> H]. rewrite H. simpl. split; lia.
Qed.

End EngineFacts.

(** ** The chat executor *)

Module ChatExecutorFacts.
Import ChatExecutor.

Section WithCollaborators.
Variable env : Collaborators.

Lemma superstep_agent (s : AgentState) :
  superstep merge (app env) s ["agent"] =
    match model_invoke env (messages s) with
    | Ok response =>
        Ok (merge s {| upd_messages := Some [response] |}, next_of response,
            [("agent", {| upd_messages := Some [response] |})])
    | Err e => Err (NodeExecutionFailure "agent" e)
    end.
Proof.
  unfold superstep, run_node. simpl. unfold call_model.
  destruct (model_invoke env (messages s)) as [r|e]; simpl; [|reflexivity].
  unfold advance_frontier, route_node. simpl.
  unfold should_continue, next_of. simpl. rewrite py_last_snoc. simpl.
  destruct (additional_kwargs r !! "function_call"); reflexivity.
Qed.

Lemma superstep_action (s : AgentState) :
  superstep merge (app env) s ["action"] =
    match call_tool env s with
    | Ok u => Ok (merge s u, ["agent"], [("action", u)])
    | Err e => Err (NodeExecutionFailure "action" e)
    end.
Proof.
  unfold superstep, run_node. simpl.
  destruct (call_tool env s) as [u|e]; simpl; reflexivity.
Qed.

Lemma call_tool_ok (s : AgentState) (m : BaseMessage) (fc : gmap string string)
    (nm args : string) (parsed : JSON env) (obs : string) :
  py_last (messages s) = Ok m ->
  additional_kwargs m !! "function_call" = Some fc ->
  fc !! "name" = Some nm ->
  fc !! "arguments" = Some args ->
  json_loads env args = Ok parsed ->
  tool_executor_invoke env {| tool := nm; tool_input := parsed |} = Ok obs ->
  call_tool env s = Ok {| upd_messages := Some [FunctionMessage obs nm] |}.
Proof.
  intros Hl Hfc Hn Ha Hj Ht. unfold call_tool, getitem.
  rewrite Hl. simpl. rewrite Hfc. simpl. rewrite Hn. simpl. rewrite Ha. simpl.
  rewrite Hj. simpl. rewrite Ht. reflexivity.
Qed.

(** C2: on a fresh thread, the run of the two-node cycle from
    [{messages: [H]}], where the model's first message carries a
    function call that the action node serves and its second message
    carries none, finishes with exactly the four messages
    [H; A1; F1; A2], the third being the function message of the tool. *)
Theorem two_node_cycle (H A1 A2 : BaseMessage) (fc : gmap string string)
    (nm args : string) (parsed : JSON env) (obs : string)
    (memory : gmap string (list Checkpoint)) (thread_id : string) :
  load thread_id memory = None ->
  3 <= default_recursion_limit env ->
  model_invoke env [H] = Ok A1 ->
  additional_kwargs A1 !! "function_call" = Some fc ->
  fc !! "name" = Some nm ->
  fc !! "arguments" = Some args ->
  json_loads env args = Ok parsed ->
  tool_executor_invoke env {| tool := nm; tool_input := parsed |} = Ok obs ->
  model_invoke env [H; A1; FunctionMessage obs nm] = Ok A2 ->
  additional_kwargs A2 !! "function_call" = None ->
  let run := stream env memory {| upd_messages := Some [H] |} thread_id in
  run_status run = Finished
  /\ messages (run_state run) = [H; A1; FunctionMessage obs nm; A2]
  /\ length (messages (run_state run)) = 4
  /\ run_events run =
       [[("agent", {| upd_messages := Some [A1] |})];
        [("action", {| upd_messages := Some [FunctionMessage obs nm] |})];
        [("agent", {| upd_messages := Some [A2] |})]].
Proof.
  intros Hload Hlim HA1 Hfc Hn Ha Hj Ht HA2 Hno. unfold stream, invoke.
  change (checkpointer (app env)) with true. cbv iota. rewrite Hload.
  change (entry_point (app env)) with "agent".
  destruct (default_recursion_limit env) as [|[|[|limit]]]; [lia | lia | lia |].
  clear Hlim. cbv zeta.
  cbn [superstep_loop]. rewrite superstep_agent. simpl messages. rewrite HA1.
  unfold next_of. rewrite Hfc.
  cbn [superstep_loop]. rewrite superstep_action.
  rewrite (call_tool_ok _ A1 fc nm args parsed obs); auto.
  cbn [superstep_loop]. rewrite superstep_agent. simpl messages. rewrite HA2.
  unfold next_of. rewrite Hno.
  destruct limit; simpl; auto.
Qed.

Lemma merge_all_messages (s : AgentState) (outs : Event) :
  messages (merge_all merge s outs) =
    messages s ++ concat (map (fun o => default [] (upd_messages (snd o))) outs).
Proof.
  unfold merge_all. revert s. induction outs as [|o outs IH]; intros s; simpl.
  - symmetry. apply app_nil_r.
  - rewrite IH. simpl. rewrite merge_append_default, <- app_assoc. reflexivity.
Qed.

Lemma fold_merge_all_messages (evs : list Event) (s : AgentState) :
  messages (fold_left (merge_all merge) evs s) = messages s ++ event_messages evs.
Proof.
  unfold event_messages. revert s. induction evs as [|ev evs IH]; intros s; simpl.
  - symmetry. apply app_nil_r.
  - rewrite IH, merge_all_messages, <- app_assoc. reflexivity.
Qed.

(** Every run ends in the state it entered with, followed by the messages
    of its events. *)
Lemma stream_messages (memory : gmap string (list Checkpoint)) (inputs : AgentUpdate)
    (thread_id : string) :
  let run := stream env memory inputs thread_id in
  messages (run_state run) =
    match load thread_id memory with
    | Some ck => messages (state_snapshot ck)
    | None => []
    end ++ default [] (upd_messages inputs) ++ event_messages (run_events run).
Proof.
  cbv zeta. unfold stream, invoke. change (checkpointer (app env)) with true. cbv iota.
  match goal with
  | |- context [superstep_loop ?m ?g ?t ?l ?k ?b ?s ?f ?st ?e] =>
      destruct (loop_events m g t l k b s f st e) as [new [Hev Hst]]
  end.
  rewrite Hst, Hev, fold_merge_all_messages. simpl.
  destruct (load thread_id memory) as [ck|]; simpl;
    rewrite merge_append_default, <- ?app_assoc; reflexivity.
Qed.

(** C3: when a first invocation on a thread has finished, a later invocation
    on the same thread (whatever ran on other threads in between) restores
    the state the first one ended in, merges its input into it and enters at
    the entry point; the state it ends in holds the messages of the first
    run, then [H2], then the messages its own supersteps appended. *)
Theorem thread_continuity (memory later : gmap string (list Checkpoint)) (thread_id : string)
    (H1 H2 : BaseMessage) :
  let run1 := stream env memory {| upd_messages := Some [H1] |} thread_id in
  let run2 := stream env later {| upd_messages := Some [H2] |} thread_id in
  run_status run1 = Finished ->
  load thread_id later = load thread_id (run_store run1) ->
  (exists ck,
      load thread_id later = Some ck
      /\ state_snapshot ck = run_state run1
      /\ run2 = superstep_loop merge (app env) thread_id (default_recursion_limit env)
                  0 (step_index ck)
                  (merge (run_state run1) {| upd_messages := Some [H2] |})
                  [entry_point (app env)] later [])
  /\ messages (run_state run2) =
       messages (run_state run1) ++ [H2] ++ event_messages (run_events run2).
Proof.
  intros run1 run2 Hfin Hlater.
  assert (Hck : exists ck, load thread_id (run_store run1) = Some ck
                           /\ state_snapshot ck = run_state run1).
  { subst run1. unfold stream, invoke in *.
    match goal with
    | |- context [superstep_loop ?m ?g ?t ?l ?k ?b ?s ?f ?st ?e] =>
        destruct (loop_latest m g t l eq_refl k b s f st e)
          as [(_ & _ & _ & Hnil) | (ck & Hl & Hs & _)]
    end.
    - specialize (Hnil Hfin). discriminate.
    - exists ck. auto. }
  destruct Hck as (ck & Hl & Hs). rewrite Hl in Hlater. split.
  - exists ck. split; [exact Hlater|]. split; [exact Hs|].
    subst run2. unfold stream at 1. unfold invoke.
    change (checkpointer (app env)) with true. cbv iota.
    rewrite Hlater, Hs. reflexivity.
  - subst run2. rewrite stream_messages. rewrite Hlater, Hs. reflexivity.
Qed.

(** C7: the router of a conditional edge is evaluated on the state in
    which the update of the node that just ran is merged. In the
    superstep of the agent node, [should_continue] inspects, as last
    message, the message [call_model] returned in that superstep, and the
    next frontier is read off that message. *)
Theorem router_sees_merged_state (s : AgentState) (u : AgentUpdate) :
  call_model env s = Ok u ->
  exists response,
    u = {| upd_messages := Some [response] |}
    /\ superstep merge (app env) s ["agent"] =
         Ok (merge s u, next_of response, [("agent", u)])
    /\ py_last (messages (merge s u)) = Ok response
    /\ should_continue (merge s u) =
         Ok (KStr (match additional_kwargs response !! "function_call" with
                   | Some _ => "continue"
                   | None => "end"
                   end))
    /\ advance_frontier (app env) (merge s u) ["agent"] = Ok (next_of response)
    /\ (forall fr s' fr' ev,
          superstep merge (app env) s fr = Ok (s', fr', ev) ->
          s' = merge_all merge s ev /\ advance_frontier (app env) s' fr = Ok fr').
Proof.
  unfold call_model. intros Hu.
  destruct (model_invoke env (messages s)) as [r|e] eqn:Hm; simpl in Hu; [|discriminate].
  injection Hu as <-. exists r.
  assert (Hlast : py_last (messages (merge s {| upd_messages := Some [r] |})) = Ok r)
    by (simpl; apply py_last_snoc).
  assert (Hstep := superstep_agent s). rewrite Hm in Hstep.
  split; [reflexivity|]. split; [exact Hstep|]. split; [exact Hlast|]. split.
  - unfold should_continue. cbv zeta. rewrite Hlast. simpl.
    destruct (additional_kwargs r !! "function_call"); reflexivity.
  - split.
    + apply superstep_inv in Hstep. tauto.
    + intros fr s' fr' ev H. apply superstep_inv in H. tauto.
Qed.

(** The frontiers of [app] and what holds of the state when the action
    node is scheduled. *)
Lemma reachable_shape (s : AgentState) (fr : list string) :
  reachable env s fr ->
  fr = [] \/ fr = ["agent"]
  \/ (fr = ["action"]
      /\ exists m fc, py_last (messages s) = Ok m
                      /\ additional_kwargs m !! "function_call" = Some fc).
Proof.
  induction 1 as [s | s s' fr fr' ev Hr IH Hstep].
  - right. left. reflexivity.
  - destruct IH as [-> | [-> | [-> _]]].
    + rewrite superstep_nil in Hstep. injection Hstep as <- <- <-. left. reflexivity.
    + rewrite superstep_agent in Hstep.
      destruct (model_invoke env (messages s)) as [r|e]; [|discriminate].
      injection Hstep as <- <- <-. unfold next_of.
      destruct (additional_kwargs r !! "function_call") as [fc|] eqn:Hfc.
      * right. right. split; [reflexivity|]. exists r, fc. split; [|exact Hfc].
        simpl. apply py_last_snoc.
      * left. reflexivity.
    + rewrite superstep_action in Hstep.
      destruct (call_tool env s) as [u|e]; [|discriminate].
      injection Hstep as <- <- <-. right. left. reflexivity.
Qed.

(** A run of the loop from a reachable configuration ends in one. *)
Lemma loop_reachable (tid : string) (limit : nat) :
  forall taken base s fr st evs,
    reachable env s fr ->
    exists fr', reachable env
                  (run_state (superstep_loop merge (app env) tid limit taken base s fr st evs))
                  fr'.
Proof.
  induction limit as [|limit IH]; intros taken base s fr st evs Hr.
  - exists fr. destruct fr; exact Hr.
  - destruct fr as [|n fr]; [exists []; exact Hr|]. cbn [superstep_loop].
    destruct (superstep merge (app env) s (n :: fr)) as [[[s' fr'] ev]|e] eqn:E.
    + apply IH. exact (reachable_step env s s' (n :: fr) fr' ev Hr E).
    + exists (n :: fr). exact Hr.
Qed.

(** C8: in every configuration an execution of the chat executor passes
    through, when the action node is scheduled the messages are not
    empty and the last message holds a ["function_call"] entry (the
    router answered ["continue"]), so the two accesses [messages[-1]]
    and [additional_kwargs["function_call"]] of [call_tool] succeed. *)
Theorem call_tool_precondition (s : AgentState) (fr : list string) :
  reachable env s fr ->
  In "action" fr ->
  messages s <> []
  /\ should_continue s = Ok (KStr "continue")
  /\ exists last_message function_call,
      py_last (messages s) = Ok last_message
      /\ getitem "function_call" (additional_kwargs last_message) = Ok function_call.
Proof.
  intros Hr Hin. destruct (reachable_shape s fr Hr) as [-> | [-> | [-> Hlast]]].
  - destruct Hin.
  - destruct Hin as [Hin | []]. discriminate.
  - destruct Hlast as (m & fc & Hl & Hfc). split; [|split].
    + intros Hnil. rewrite Hnil in Hl. discriminate.
    + unfold should_continue. cbv zeta. rewrite Hl. simpl. rewrite Hfc. reflexivity.
    + exists m, fc. split; [exact Hl|]. unfold getitem. rewrite Hfc. reflexivity.
Qed.

End WithCollaborators.

Lemma two_node_cycle_witness :
  let run := stream scripted ∅ {| upd_messages := Some [HumanMessage "q"] |} "2" in
  run_status run = Finished
  /\ messages (run_state run) =
       [HumanMessage "q"; tool_call_message;
        FunctionMessage "observation" "tavily_answer"; AIMessage "answer"]
  /\ length (messages (run_state run)) = 4
  /\ run_events run =
       [[("agent", {| upd_messages := Some [tool_call_message] |})];
        [("action",
          {| upd_messages := Some [FunctionMessage "observation" "tavily_answer"] |})];
        [("agent", {| upd_messages := Some [AIMessage "answer"] |})]].
Proof.
  apply (two_node_cycle scripted (HumanMessage "q") tool_call_message (AIMessage "answer")
           (<["name" := "tavily_answer"]> {[ "arguments" := "{}" ]})
           "tavily_answer" "{}" "{}" "observation" ∅ "2").
  - reflexivity.
  - simpl. lia.
  - reflexivity.
  - reflexivity.
  - reflexivity.
  - reflexivity.
  - reflexivity.
  - reflexivity.
  - reflexivity.
  - reflexivity.
Defined.

Lemma thread_continuity_witness :
  let run1 := stream scripted ∅ {| upd_messages := Some [HumanMessage "q1"] |} "2" in
  let run2 :=
    stream scripted (run_store run1) {| upd_messages := Some [HumanMessage "q2"] |} "2" in
  run_status run1 = Finished
  /\ messages (run_state run2) =
       messages (run_state run1) ++ [HumanMessage "q2"] ++ event_messages (run_events run2).
Proof.
  split.
  - vm_compute. reflexivity.
  - apply (thread_continuity scripted ∅ _ "2" (HumanMessage "q1") (HumanMessage "q2")).
    + vm_compute. reflexivity.
    + reflexivity.
Defined.

Lemma router_sees_merged_state_witness :
  exists response,
    py_last (messages (merge {| messages := [HumanMessage "q"] |}
                         {| upd_messages := Some [tool_call_message] |})) = Ok response
    /\ advance_frontier (app scripted)
         (merge {| messages := [HumanMessage "q"] |}
            {| upd_messages := Some [tool_call_message] |}) ["agent"] = Ok (next_of response).
Proof.
  destruct (router_sees_merged_state scripted {| messages := [HumanMessage "q"] |}
              {| upd_messages := Some [tool_call_message] |} eq_refl)
    as (response & _ & _ & Hlast & _ & Hnext & _).
  exists response. split; [exact Hlast | exact Hnext].
Defined.

Lemma call_tool_precondition_witness :
  should_continue {| messages := [HumanMessage "q"; tool_call_message] |}
    = Ok (KStr "continue").
Proof.
  refine (proj1 (proj2 (call_tool_precondition scripted
            {| messages := [HumanMessage "q"; tool_call_message] |} ["action"] _ _))).
  - apply (reachable_step scripted {| messages := [HumanMessage "q"] |} _ ["agent"] _
             [("agent", {| upd_messages := Some [tool_call_message] |})]).
    + apply reachable_entry.
    + reflexivity.
  - simpl. left. reflexivity.
Defined.

(** The two invocations of the notebook on thread ["2"], with the scripted
    collaborators. *)
Example continue_the_conversation :
  let run1 := stream scripted ∅ {| upd_messages := Some [HumanMessage "q1"] |} "2" in
  let run2 :=
    stream scripted (run_store run1) {| upd_messages := Some [HumanMessage "q2"] |} "2" in
  messages (run_state run2) =
    [HumanMessage "q1"; tool_call_message;
     FunctionMessage "observation" "tavily_answer"; AIMessage "answer";
     HumanMessage "q2"; tool_call_message;
     FunctionMessage "observation" "tavily_answer"; AIMessage "answer"]
  /\ map step_index (default [] (run_store run2 !! "2")) = [6; 5; 4; 3; 2; 1].
Proof. vm_compute. split; reflexivity. Qed.

(** A function call without a name: [call_tool] raises and the run aborts
    with the two messages it had. *)
Example function_call_without_name :
  let nameless :=
    {| type := ai; content := ""; name := None;
       additional_kwargs := {[ "function_call" := {[ "arguments" := "{}" ]} ]} |} in
  let env :=
    {| JSON := string; model_invoke := fun _ => Ok nameless; json_loads := fun s => Ok s;
       tool_executor_invoke := fun _ => Ok "observation"; default_recursion_limit := 25 |} in
  let run := stream env ∅ {| upd_messages := Some [HumanMessage "q"] |} "2" in
  run_status run = Aborted (NodeExecutionFailure "action" (KeyError "name"))
  /\ messages (run_state run) = [HumanMessage "q"; nameless].
Proof. vm_compute. split; reflexivity. Qed.

End ChatExecutorFacts.

(** ** Plan and execute *)

Module PlanAndExecuteFacts.
Import PlanAndExecute.

Lemma zip_map_results {A B C} (f : A -> B) (g : B -> C) (l : list A) :
  map (fun p => (fst p, g (snd p))) (combine l (map f l)) = map (fun a => (a, g (f a))) l.
Proof. induction l as [|a l IH]; simpl; [reflexivity | rewrite IH; reflexivity]. Qed.


(** Without [return_exceptions] a failing item aborts the batch. *)
Lemma abatch_aborts_without_flag {A B} (unit : A -> result exn B) (before after : list A)
    (a : A) (e : exn) :
  unit a = Err e ->
  (forall x, In x before -> exists b, unit x = Ok b) ->
  abatch unit (before ++ a :: after) false = Err e.
Proof.
  intros Ha Hb. unfold abatch.
  assert (H : collect unit (before ++ a :: after) = Err e).
  { induction before as [|x before IH]; simpl.
    - rewrite Ha. reflexivity.
    - destruct (Hb x (or_introl eq_refl)) as [b ->]. simpl.
      rewrite IH; [reflexivity|]. intros y Hy. apply Hb. right. exact Hy. }
  rewrite H. reflexivity.
Qed.

Section WithCollaborators.
Variable env : Collaborators.

Lemma execute_tools_eq (data : ExecAgentState) (outcome : AgentOutcome) :
  agent_outcome data = Some outcome ->
  execute_tools env data =
    Ok {| upd_exec_input := None; upd_chat_history := None; upd_agent_outcome := None;
          upd_intermediate_steps :=
            Some (map (fun a => (a, str_out (tool_executor_invoke env a)))
                    (batch_inputs outcome)) |}.
Proof.
  intros H. unfold execute_tools. rewrite H. simpl.
  fold (batch_inputs outcome). rewrite zip_map_results. reflexivity.
Qed.


(** *** The sub-graph *)

Lemma superstep_subagent (s : ExecAgentState) :
  superstep exec_merge (executor_agent env) s ["subagent"] =
    match run_agent env s with
    | Ok u =>
        Ok (exec_merge s u,
            match upd_agent_outcome u with
            | Some (One (Finish _)) => []
            | _ => ["action"]
            end,
            [("subagent", u)])
    | Err e => Err (NodeExecutionFailure "subagent" e)
    end.
Proof.
  unfold superstep, run_node. simpl. unfold run_agent.
  destruct (agent_runnable_ainvoke env s) as [o|e]; simpl; [|reflexivity].
  unfold advance_frontier, route_node. simpl.
  destruct o as [[a|f|]|l]; reflexivity.
Qed.

Lemma superstep_tools (s : ExecAgentState) :
  superstep exec_merge (executor_agent env) s ["action"] =
    match execute_tools env s with
    | Ok u => Ok (exec_merge s u, ["subagent"], [("action", u)])
    | Err e => Err (NodeExecutionFailure "action" e)
    end.
Proof.
  unfold superstep, run_node. simpl.
  destruct (execute_tools env s) as [u|e]; simpl; reflexivity.
Qed.

(** The sub-graph only finishes on an [AgentFinish]. *)
Lemma subgraph_finishes_on_finish (tid : string) (limit : nat) :
  forall taken base s fr st evs,
    fr = ["subagent"] \/ fr = ["action"]
    \/ (fr = [] /\ exists f, agent_outcome s = Some (One (Finish f))) ->
    let run := superstep_loop exec_merge (executor_agent env) tid limit taken base
                 s fr st evs in
    run_status run = Finished ->
    exists f, agent_outcome (run_state run) = Some (One (Finish f)).
Proof.
  induction limit as [|limit IH]; intros taken base s fr st evs Hfr; cbv zeta.
  - destruct Hfr as [-> | [-> | [-> Hf]]]; simpl; try discriminate. intros _. exact Hf.
  - destruct Hfr as [-> | [-> | [-> Hf]]]; cbn [superstep_loop].
    + rewrite superstep_subagent. unfold run_agent.
      destruct (agent_runnable_ainvoke env s) as [o|e]; simpl rbind; [|discriminate].
      apply IH. simpl.
      destruct o as [[a|f|]|l]; auto. right. right. split; [reflexivity|]. eauto.
    + rewrite superstep_tools.
      destruct (execute_tools env s) as [u|e]; [|discriminate]. apply IH. auto.
    + intros _. exact Hf.
Qed.

(** *** The main graph *)

Lemma superstep_planner (s : PlanExecute) :
  superstep merge (app env) s ["planner"] =
    match plan_step env s with
    | Ok u => Ok (merge s u, ["agent"], [("planner", u)])
    | Err e => Err (NodeExecutionFailure "planner" e)
    end.
Proof.
  unfold superstep, run_node. simpl.
  destruct (plan_step env s) as [u|e]; simpl; reflexivity.
Qed.

Lemma superstep_execute (s : PlanExecute) :
  superstep merge (app env) s ["agent"] =
    match execute_step env s with
    | Ok u => Ok (merge s u, ["replan"], [("agent", u)])
    | Err e => Err (NodeExecutionFailure "agent" e)
    end.
Proof.
  unfold superstep, run_node. simpl.
  destruct (execute_step env s) as [u|e]; simpl; reflexivity.
Qed.

Lemma superstep_replan (s : PlanExecute) :
  superstep merge (app env) s ["replan"] =
    match replan_step env s with
    | Ok u =>
        Ok (merge s u,
            match should_end (merge s u) with
            | Ok (KBool true) => []
            | _ => ["agent"]
            end,
            [("replan", u)])
    | Err e => Err (NodeExecutionFailure "replan" e)
    end.
Proof.
  unfold superstep, run_node. simpl.
  destruct (replan_step env s) as [u|e]; simpl; [|reflexivity].
  unfold advance_frontier, route_node. simpl. unfold should_end. simpl.
  destruct (merge_replace (response s) (upd_response u)) as [r|]; [|reflexivity].
  destruct (String.eqb r ""); reflexivity.
Qed.

(** C6: [execute_step] hands the sub-graph the first plan step as
    [input] and the parent's messages as [chat_history]; it returns only
    when the run of the sub-graph has finished, which the sub-graph does
    on an [AgentFinish]; and what it returns is one [past_steps] entry
    made of the task and the output of that final [agent_outcome]. The
    parent spends one superstep on it, whose only effect is that entry. *)
Theorem execute_step_runs_subgraph (state : PlanExecute) :
  let sub_run task :=
    invoke exec_empty exec_merge (executor_agent env) ∅ ""
      (projected_input task state) (default_recursion_limit env) in
  (forall task,
      sub_run task =
        superstep_loop exec_merge (executor_agent env) "" (default_recursion_limit env)
          0 0
          {| exec_input := Some task; chat_history := Some (messages state);
             agent_outcome := None; intermediate_steps := [] |}
          ["subagent"] ∅ [])
  /\ (forall u,
        execute_step env state = Ok u ->
        exists task rest f output,
          plan state = Some (task :: rest)
          /\ run_status (sub_run task) = Finished
          /\ agent_outcome (run_state (sub_run task)) = Some (One (Finish f))
          /\ should_continue (run_state (sub_run task)) = Ok (KStr "end")
          /\ return_values f !! "output" = Some output
          /\ u = past_step_update task output
          /\ superstep merge (app env) state ["agent"] =
               Ok (merge state u, ["replan"], [("agent", u)])
          /\ merge state u =
               {| input := input state; messages := messages state; plan := plan state;
                  past_steps := past_steps state ++ [(task, output)];
                  response := response state |})
  /\ (forall task rest,
        plan state = Some (task :: rest) ->
        run_status (sub_run task) = Finished ->
        exists f,
          agent_outcome (run_state (sub_run task)) = Some (One (Finish f))
          /\ execute_step env state =
               match return_values f !! "output" with
               | Some output => Ok (past_step_update task output)
               | None => Err (KeyError "output")
               end)
  /\ (forall task rest e,
        plan state = Some (task :: rest) ->
        run_status (sub_run task) = Aborted e ->
        execute_step env state = Err (raised e)).
Proof.
  intros sub_run. split; [reflexivity|]. split; [|split].
  - intros u Hu. unfold execute_step in Hu.
    destruct (plan state) as [[|task rest]|] eqn:Hp; simpl in Hu; try discriminate.
    unfold executor_agent_ainvoke in Hu. fold (projected_input task state) in Hu.
    fold (sub_run task) in Hu.
    destruct (run_status (sub_run task)) eqn:Hst; simpl in Hu; [|discriminate].
    destruct (agent_outcome (run_state (sub_run task))) as [[[a|f|]|l]|] eqn:Ho;
      simpl in Hu; try discriminate.
    unfold getitem in Hu.
    destruct (return_values f !! "output") as [output|] eqn:Hout; simpl in Hu;
      [|discriminate].
    injection Hu as <-. exists task, rest, f, output.
    split; [reflexivity|]. split; [exact Hst|]. split; [exact Ho|]. split.
    { unfold should_continue. rewrite Ho. reflexivity. }
    split; [exact Hout|]. split; [reflexivity|]. split.
    + rewrite superstep_execute. unfold execute_step. rewrite Hp. simpl.
      unfold executor_agent_ainvoke. fold (projected_input task state).
      fold (sub_run task). rewrite Hst. simpl. rewrite Ho. simpl.
      unfold getitem. rewrite Hout. reflexivity.
    + unfold merge. simpl. rewrite Hp. reflexivity.
  - intros task rest Hp Hst.
    destruct (subgraph_finishes_on_finish "" (default_recursion_limit env) 0 0
                (exec_merge exec_empty (projected_input task state)) ["subagent"] ∅ []
                (or_introl eq_refl) Hst) as [f Hf].
    exists f. split; [exact Hf|].
    unfold execute_step. rewrite Hp. simpl.
    unfold executor_agent_ainvoke. fold (projected_input task state).
    fold (sub_run task). rewrite Hst. simpl.
    change (agent_outcome (run_state (sub_run task)) = Some (One (Finish f))) in Hf.
    rewrite Hf. simpl. unfold getitem.
    destruct (return_values f !! "output"); reflexivity.
  - intros task rest e Hp Hst. unfold execute_step. rewrite Hp. simpl.
    unfold executor_agent_ainvoke. fold (projected_input task state).
    fold (sub_run task). rewrite Hst. reflexivity.
Qed.

(** The run of [run_app] is under the engine's default limit: the config
    holds no [recursion_limit] key of its own. *)
Lemma run_app_eq (memory : gmap string (list Checkpoint)) (input thread_id : string)
    (recursion_limit : nat) :
  run_app env memory input thread_id recursion_limit =
    invoke empty merge (app env) memory thread_id
      {| upd_input := Some input; upd_messages := None; upd_plan := None;
         upd_past_steps := None; upd_response := None |}
      (default_recursion_limit env).
Proof. reflexivity. Qed.

(** C4 does not hold of the code: [run_app] puts its [recursion_limit] into
    [configurable], where the engine does not read it. The run is the same
    for every value of it, and is bounded by the engine's default limit [L]
    instead: a run whose frontier is still non-empty after each of the first
    [L] supersteps aborts with the recursion error for step [L + 1], after
    [L] committed supersteps, and not at step [N + 1] for the limit [N] the
    caller gave. *)
Theorem run_app_recursion_limit_unread (memory : gmap string (list Checkpoint))
    (input thread_id : string) (N : nat) :
  let run := run_app env memory input thread_id N in
  let L := default_recursion_limit env in
  let inputs := {| upd_input := Some input; upd_messages := None; upd_plan := None;
                   upd_past_steps := None; upd_response := None |} in
  let s0 := match load thread_id memory with
            | Some ck => merge (state_snapshot ck) inputs
            | None => merge empty inputs
            end in
  (forall M, run_app env memory input thread_id M = run)
  /\ ((forall k, k <= L ->
         exists s fr, after_supersteps merge (app env) k s0 ["planner"] = Ok (s, fr)
                      /\ fr <> []) ->
      run_status run = Aborted (RecursionLimitExceeded (L + 1))
      /\ length (run_events run) = L
      /\ (N <> L ->
          run_status run <> Aborted (RecursionLimitExceeded (N + 1))
          /\ length (run_events run) <> N)).
Proof.
  intros run L inputs s0. split; [intros M; reflexivity|]. intros Hk.
  destruct (recursion_limit_exact empty merge (app env) memory thread_id inputs L)
    as [(sN & frN & _ & _ & Hs & _ & Hlen & _) _].
  { exact Hk. }
  change (run_status run = Aborted (RecursionLimitExceeded (L + 1))) in Hs.
  change (length (run_events run) = L) in Hlen.
  split; [exact Hs|]. split; [exact Hlen|]. intros Hne. rewrite Hs, Hlen. split.
  - intros [= H]. lia.
  - intros H. apply Hne. symmetry. exact H.
Qed.

Lemma execute_step_empty_plan (state : PlanExecute) :
  plan state = Some [] -> execute_step env state = Err IndexError.
Proof. intros H. unfold execute_step. rewrite H. reflexivity. Qed.

(** C9 does not hold of the code: [execute_step] is scheduled whatever
    the plan holds. When the planner returns a plan without steps, the run
    commits the planner's superstep, schedules [execute_step] on a state
    whose plan is the empty list, and aborts on the [IndexError] of
    [state["plan"][0]]; the same happens after a replanner that returns a
    plan without steps while the response is empty. *)
Theorem empty_plan_reaches_execute_step (memory : gmap string (list Checkpoint))
    (input thread_id : string) (recursion_limit : nat) :
  (forall chat_history, planner_ainvoke env input chat_history = Ok {| steps := [] |}) ->
  2 <= default_recursion_limit env ->
  let run := run_app env memory input thread_id recursion_limit in
  run_status run = Aborted (NodeExecutionFailure "agent" IndexError)
  /\ plan (run_state run) = Some []
  /\ execute_step env (run_state run) = Err IndexError
  /\ length (run_events run) = 1
  /\ (forall s,
        replanner_ainvoke env s = Ok (OutPlan {| steps := [] |}) ->
        response s = Some "" ->
        exists s' ev,
          superstep merge (app env) s ["replan"] = Ok (s', ["agent"], ev)
          /\ plan s' = Some []
          /\ superstep merge (app env) s' ["agent"]
               = Err (NodeExecutionFailure "agent" IndexError)).
Proof.
  intros Hplanner Hlim. cbv zeta. rewrite run_app_eq. unfold invoke.
  change (checkpointer (app env)) with true. cbv iota.
  change (entry_point (app env)) with "planner".
  destruct (default_recursion_limit env) as [|[|limit]]; [lia | lia |]. clear Hlim.
  cbn [superstep_loop]. rewrite superstep_planner. unfold plan_step.
  match goal with
  | |- context [getfield "input" (PlanAndExecute.input ?s)] =>
      assert (Hin : PlanAndExecute.input s = Some input)
        by (destruct (load thread_id memory); reflexivity);
      rewrite Hin
  end.
  simpl rbind. rewrite Hplanner. simpl rbind. cbv iota beta.
  cbn [superstep_loop]. rewrite superstep_execute.
  rewrite execute_step_empty_plan by reflexivity.
  simpl. split; [reflexivity|]. split; [reflexivity|].
  split; [apply execute_step_empty_plan; reflexivity|]. split; [reflexivity|].
  intros s Hre Hresp. rewrite superstep_replan. unfold replan_step. rewrite Hre.
  simpl rbind. cbv iota beta. unfold should_end. simpl. rewrite Hresp. simpl.
  eexists _, _. split; [reflexivity|]. split; [reflexivity|].
  rewrite superstep_execute, execute_step_empty_plan by reflexivity. reflexivity.
Qed.

(** The frontiers of [app], and the plan when the planners return steps. *)
Lemma reachable_plan :
  (forall objective chat_history p,
      planner_ainvoke env objective chat_history = Ok p -> steps p <> []) ->
  (forall s p, replanner_ainvoke env s = Ok (OutPlan p) -> steps p <> []) ->
  forall s fr,
    reachable env s fr ->
    fr = [] \/ fr = ["planner"]
    \/ ((fr = ["agent"] \/ fr = ["replan"]) /\ exists task rest, plan s = Some (task :: rest)).
Proof.
  intros Hplanner Hreplanner s fr. induction 1 as [s | s s' fr fr' ev Hr IH Hstep].
  - right. left. reflexivity.
  - destruct IH as [-> | [-> | [[-> | ->] (task & rest & Hp)]]].
    + rewrite superstep_nil in Hstep. injection Hstep as <- <- <-. left. reflexivity.
    + rewrite superstep_planner in Hstep. unfold plan_step in Hstep.
      destruct (input s) as [objective|]; simpl in Hstep; [|discriminate].
      destruct (planner_ainvoke env objective (messages s)) as [p|] eqn:E; simpl in Hstep;
        [|discriminate].
      injection Hstep as <- <- <-. right. right. split; [left; reflexivity|]. simpl.
      apply Hplanner in E. destruct (steps p) as [|t r]; [congruence|]. eauto.
    + rewrite superstep_execute in Hstep.
      destruct (execute_step env s) as [u|] eqn:E; [|discriminate].
      injection Hstep as <- <- <-. right. right. split; [right; reflexivity|].
      unfold execute_step in E. rewrite Hp in E. simpl in E.
      destruct (executor_agent_ainvoke env _) as [r|]; simpl in E; [|discriminate].
      destruct (agent_outcome r) as [[[a|f|]|l]|]; simpl in E; try discriminate.
      destruct (getitem "output" (return_values f)); simpl in E; [|discriminate].
      injection E as <-. simpl. rewrite Hp. eauto.
    + rewrite superstep_replan in Hstep.
      destruct (replan_step env s) as [u|] eqn:E; [|discriminate].
      injection Hstep as <- <- <-.
      assert (Hplan : exists task' rest', plan (merge s u) = Some (task' :: rest')).
      { unfold replan_step in E.
        destruct (replanner_ainvoke env s) as [[p|r|q|i]|] eqn:Ere; simpl in E;
          try discriminate; injection E as <-; simpl; rewrite ?Hp; eauto.
        apply Hreplanner in Ere. destruct (steps p) as [|t r]; [congruence|]. eauto. }
      destruct (should_end (merge s u)) as [[k|[|]]|]; auto.
Qed.

(** When the planner and the replanner only return plans with steps,
    [execute_step] is only scheduled on a plan with a first step. *)
Lemma execute_step_plan_when_planners_return_steps :
  (forall objective chat_history p,
      planner_ainvoke env objective chat_history = Ok p -> steps p <> []) ->
  (forall s p, replanner_ainvoke env s = Ok (OutPlan p) -> steps p <> []) ->
  forall s fr,
    reachable env s fr -> In "agent" fr -> exists task rest, plan s = Some (task :: rest).
Proof.
  intros Hplanner Hreplanner s fr Hr Hin.
  destruct (reachable_plan Hplanner Hreplanner s fr Hr) as [-> | [-> | [[-> | ->] H]]].
  - destruct Hin.
  - destruct Hin as [Hin | []]. discriminate.
  - exact H.
  - exact H.
Qed.

(** *** Who writes [messages] *)

Lemma plan_step_messages (state : PlanExecute) (u : PlanExecuteUpdate) :
  plan_step env state = Ok u -> upd_messages u = None.
Proof.
  unfold plan_step. destruct (input state); simpl; [|discriminate].
  destruct (planner_ainvoke env _ _); simpl; [|discriminate].
  intros [= <-]. reflexivity.
Qed.

Lemma execute_step_messages (state : PlanExecute) (u : PlanExecuteUpdate) :
  execute_step env state = Ok u -> upd_messages u = None.
Proof.
  unfold execute_step. destruct (plan state) as [[|task rest]|]; simpl; try discriminate.
  destruct (executor_agent_ainvoke env _) as [r|]; simpl; [|discriminate].
  destruct (agent_outcome r) as [[[a|f|]|l]|]; simpl; try discriminate.
  destruct (getitem "output" (return_values f)); simpl; [|discriminate].
  intros [= <-]. reflexivity.
Qed.

Lemma replan_step_messages (state : PlanExecute) (u : PlanExecuteUpdate) :
  replan_step env state = Ok u ->
  (upd_messages u = None
   /\ exists p, replanner_ainvoke env state = Ok (OutPlan p))
  \/ (exists c,
        upd_messages u = Some [AIMessage c]
        /\ upd_response u = Some c
        /\ (replanner_ainvoke env state = Ok (OutResponse c)
            \/ replanner_ainvoke env state = Ok (OutQuestionToUser c)
            \/ replanner_ainvoke env state = Ok (OutImpossiblePlanResponse c))).
Proof.
  unfold replan_step.
  destruct (replanner_ainvoke env state) as [[p|r|q|i]|]; simpl; [| | | |discriminate];
    intros [= <-]; simpl; eauto 8.
Qed.

Lemma node_update_ai (state : PlanExecute) (n : string) (o : string * PlanExecuteUpdate) :
  run_node (app env) state n = Ok o -> Forall ai_produced (default [] (upd_messages (snd o))).
Proof.
  unfold run_node. cbn [app workflow nodes assoc].
  destruct (String.eqb "planner" n).
  { destruct (plan_step env state) as [u|] eqn:E; [|discriminate]. intros [= <-].
    simpl. rewrite (plan_step_messages _ _ E). constructor. }
  destruct (String.eqb "agent" n).
  { destruct (execute_step env state) as [u|] eqn:E; [|discriminate]. intros [= <-].
    simpl. rewrite (execute_step_messages _ _ E). constructor. }
  destruct (String.eqb "replan" n); [|discriminate].
  destruct (replan_step env state) as [u|] eqn:E; [|discriminate]. intros [= <-]. simpl.
  destruct (replan_step_messages _ _ E) as [[-> _] | (c & -> & _)]; simpl.
  - constructor.
  - constructor; [exists c; reflexivity | constructor].
Qed.

Lemma collect_forall {A B} (f : A -> result error B) (P : B -> Prop) (l : list A) :
  (forall a b, f a = Ok b -> P b) ->
  forall bs, collect f l = Ok bs -> Forall P bs.
Proof.
  intros Hf. induction l as [|a l IH]; simpl; intros bs.
  - intros [= <-]. constructor.
  - destruct (f a) as [b|] eqn:E; simpl; [|discriminate].
    destruct (collect f l) as [bs'|]; simpl; [|discriminate].
    intros [= <-]. constructor; [apply (Hf a); exact E | apply IH; reflexivity].
Qed.

Lemma merge_all_ai (outs : Event) :
  Forall (fun o => Forall ai_produced (default [] (upd_messages (snd o)))) outs ->
  forall s, ai_only s -> ai_only (merge_all merge s outs).
Proof.
  unfold merge_all. induction 1 as [|o outs Ho Houts IH]; intros s Hs; simpl; [exact Hs|].
  apply IH. unfold ai_only. simpl. rewrite merge_append_default.
  apply Forall_app. split; [exact Hs | exact Ho].
Qed.

Lemma superstep_ai (s s' : PlanExecute) (fr fr' : list string) (ev : Event) :
  superstep merge (app env) s fr = Ok (s', fr', ev) -> ai_only s -> ai_only s'.
Proof.
  intros H Hs. apply superstep_inv in H. destruct H as (Hc & -> & _).
  apply merge_all_ai; [|exact Hs].
  revert Hc. apply collect_forall. intros n o. apply node_update_ai.
Qed.

Lemma save_ai_only (tid : string) (ck : Checkpoint)
    (st : gmap string (list Checkpoint)) :
  ai_only (state_snapshot ck) -> store_ai_only st -> store_ai_only (save tid ck st).
Proof.
  intros Hck Hst tid' cks. unfold save.
  destruct (decide (tid = tid')) as [<-|Hne].
  - rewrite lookup_insert_eq. intros [= <-]. constructor; [exact Hck|].
    destruct (st !! tid) as [old|] eqn:E; simpl; [apply (Hst tid); exact E | constructor].
  - rewrite lookup_insert_ne by exact Hne. apply Hst.
Qed.

Lemma loop_ai (tid : string) (limit : nat) :
  forall taken base s fr st evs,
    ai_only s -> store_ai_only st ->
    let run := superstep_loop merge (app env) tid limit taken base s fr st evs in
    ai_only (run_state run) /\ store_ai_only (run_store run).
Proof.
  induction limit as [|limit IH]; intros taken base s fr st evs Hs Hst; cbv zeta.
  - destruct fr; simpl; auto.
  - destruct fr as [|n fr]; [simpl; auto|]. cbn [superstep_loop].
    destruct (superstep merge (app env) s (n :: fr)) as [[[s' fr'] ev]|e] eqn:E;
      [|simpl; auto].
    apply IH.
    + apply (superstep_ai _ _ _ _ _ E Hs).
    + apply save_ai_only; [|exact Hst]. apply (superstep_ai _ _ _ _ _ E Hs).
Qed.

Lemma run_app_ai (memory : gmap string (list Checkpoint)) (input thread_id : string)
    (recursion_limit : nat) :
  store_ai_only memory ->
  ai_only (run_state (run_app env memory input thread_id recursion_limit))
  /\ store_ai_only (run_store (run_app env memory input thread_id recursion_limit)).
Proof.
  intros Hst. rewrite run_app_eq. unfold invoke. apply loop_ai; [|exact Hst].
  change (checkpointer (app env)) with true. cbv iota.
  unfold load. destruct (memory !! thread_id) as [[|ck cks]|] eqn:E.
  - constructor.
  - apply Hst in E. inversion E; subst. assumption.
  - constructor.
Qed.

(** C10: [plan_step] and [execute_step] never write [messages];
    [replan_step] writes it only with one [AIMessage] whose content is
    the response, the question or the impossibility notice it also
    stores in [response]; [run_app] supplies the human input in [input]
    only. So over any session of [run_app] calls on a checkpointer that
    starts empty, every state a run ends in and every checkpointed state
    holds in [messages] nothing but messages built by [AIMessage]. *)
Theorem messages_only_from_replan :
  (forall state u, plan_step env state = Ok u -> upd_messages u = None)
  /\ (forall state u, execute_step env state = Ok u -> upd_messages u = None)
  /\ (forall state u,
        replan_step env state = Ok u ->
        (upd_messages u = None /\ exists p, replanner_ainvoke env state = Ok (OutPlan p))
        \/ (exists c,
              upd_messages u = Some [AIMessage c]
              /\ upd_response u = Some c
              /\ (replanner_ainvoke env state = Ok (OutResponse c)
                  \/ replanner_ainvoke env state = Ok (OutQuestionToUser c)
                  \/ replanner_ainvoke env state = Ok (OutImpossiblePlanResponse c))))
  /\ (forall calls input thread_id recursion_limit,
        let memory := run_apps env calls ∅ in
        let run := run_app env memory input thread_id recursion_limit in
        store_ai_only memory
        /\ ai_only (run_state run)
        /\ Forall (fun m => type m = ai) (messages (run_state run))
        /\ store_ai_only (run_store run)).
Proof.
  split; [exact plan_step_messages|]. split; [exact execute_step_messages|].
  split; [exact replan_step_messages|].
  intros calls input thread_id recursion_limit memory run.
  assert (Hmem : store_ai_only memory).
  { subst memory. clear run.
    assert (H : forall st, store_ai_only st -> store_ai_only (run_apps env calls st)).
    { induction calls as [|[[i t] l] calls IH]; intros st Hst; simpl; [exact Hst|].
      apply IH. apply run_app_ai. exact Hst. }
    apply H. intros tid cks. rewrite lookup_empty. discriminate. }
  destruct (run_app_ai memory input thread_id recursion_limit Hmem) as [H1 H2].
  split; [exact Hmem|]. split; [exact H1|]. split; [|exact H2].
  eapply Forall_impl; [exact H1|]. intros m [c ->]. reflexivity.
Qed.

End WithCollaborators.

Lemma run_app_recursion_limit_unread_witness :
  let run := run_app replanning_forever ∅ "q" "4" 3 in
  run_status run = Aborted (RecursionLimitExceeded 26)
  /\ length (run_events run) = 25
  /\ run_status run <> Aborted (RecursionLimitExceeded 4).
Proof.
  destruct (run_app_recursion_limit_unread replanning_forever ∅ "q" "4" 3) as [_ H].
  destruct H as (Hs & Hlen & Hne).
  - intros k Hk.
    do 26 (destruct k as [|k];
           [eexists _, _; (split; [vm_compute; reflexivity | discriminate])|]).
    simpl in Hk. lia.
  - split; [exact Hs|]. split; [exact Hlen|]. apply Hne. simpl. lia.
Defined.


Lemma execute_step_runs_subgraph_witness :
  exists f,
    agent_outcome
      (run_state
         (invoke exec_empty exec_merge (executor_agent scripted) ∅ ""
            (projected_input "look it up"
               {| input := Some "q"; messages := []; plan := Some ["look it up"];
                  past_steps := []; response := Some "" |})
            (default_recursion_limit scripted))) = Some (One (Finish f))
    /\ return_values f !! "output" = Some "found".
Proof.
  destruct (execute_step_runs_subgraph scripted
              {| input := Some "q"; messages := []; plan := Some ["look it up"];
                 past_steps := []; response := Some "" |}) as (_ & Hok & _).
  destruct (Hok (past_step_update "look it up" "found") eq_refl)
    as (task & rest & f & output & Hp & _ & Ho & _ & Hout & Hu & _).
  injection Hp as <- <-. injection Hu as <-.
  exists f. split; [exact Ho | exact Hout].
Defined.

Lemma empty_plan_reaches_execute_step_witness :
  run_status (run_app planning_nothing ∅ "q" "4" 50)
    = Aborted (NodeExecutionFailure "agent" IndexError)
  /\ plan (run_state (run_app planning_nothing ∅ "q" "4" 50)) = Some [].
Proof.
  destruct (empty_plan_reaches_execute_step planning_nothing ∅ "q" "4" 50)
    as (Hs & Hp & _).
  - intros chat_history. reflexivity.
  - simpl. lia.
  - split; [exact Hs | exact Hp].
Defined.

Lemma messages_only_from_replan_witness :
  upd_messages
    {| upd_input := None; upd_messages := Some [AIMessage "final answer"];
       upd_plan := None; upd_past_steps := None; upd_response := Some "final answer" |}
    = Some [AIMessage "final answer"]
  /\ ai_only (run_state (run_app scripted (run_apps scripted [("q1", "4", 50)] ∅)
                           "q2" "4" 50)).
Proof.
  destruct (messages_only_from_replan scripted) as (_ & _ & Hre & Hall). split.
  - destruct (Hre {| input := Some "q"; messages := []; plan := Some ["look it up"];
                     past_steps := [("look it up", "found")]; response := Some "" |}
                {| upd_input := None; upd_messages := Some [AIMessage "final answer"];
                   upd_plan := None; upd_past_steps := None;
                   upd_response := Some "final answer" |} eq_refl)
      as [[Hnone _] | (c & Hc & _)].
    + discriminate Hnone.
    + reflexivity.
  - apply (Hall [("q1", "4", 50)] "q2" "4" 50).
Defined.

(** One call of [run_app] with the scripted collaborators: planner, agent,
    replan, and the answer as the only message. *)
Example run_app_scripted :
  let run := run_app scripted ∅ "q" "4" 50 in
  run_status run = Finished
  /\ map (map fst) (run_events run) = [["planner"]; ["agent"]; ["replan"]]
  /\ run_state run =
       {| input := Some "q"; messages := [AIMessage "final answer"];
          plan := Some ["look it up"]; past_steps := [("look it up", "found")];
          response := Some "final answer" |}.
Proof. vm_compute. repeat split. Qed.

(** The sub-graph on one task: agent, tools, agent. *)
Example executor_agent_scripted :
  let run := invoke exec_empty exec_merge (executor_agent scripted) ∅ ""
               (projected_input "look it up" empty) 25 in
  run_status run = Finished
  /\ map (map fst) (run_events run) = [["subagent"]; ["action"]; ["subagent"]]
  /\ intermediate_steps (run_state run) = [(Action (search "q"), "observation")]
  /\ run_store run = ∅.
Proof. vm_compute. repeat split. Qed.

End PlanAndExecuteFacts.

(** * Further properties of the notebooks' code *)

(** ** Invariants of a run *)

Section EngineInvariant.
Context {State Update : Type}.
Variable merge : State -> Update -> State.

(** A property of (events so far, state, frontier) that every superstep
    keeps holds when the loop stops; a run that aborts stops at a non-empty
    frontier, on the recursion limit or on the error of its superstep. *)
Lemma loop_invariant (g : Graph) (tid : string)
    (Inv : list (Event (Update := Update)) -> State -> list string -> Prop) :
  (forall new s fr s' fr' ev,
      Inv new s fr -> fr <> [] -> superstep merge g s fr = Ok (s', fr', ev) ->
      Inv (new ++ [ev]) s' fr') ->
  forall limit taken base s fr st evs new0,
    Inv new0 s fr ->
    let run := superstep_loop merge g tid limit taken base s fr st evs in
    exists new frf,
      run_events run = evs ++ new
      /\ Inv (new0 ++ new) (run_state run) frf
      /\ match run_status run with
         | Finished => frf = []
         | Aborted e =>
             frf <> []
             /\ (e = RecursionLimitExceeded (S (taken + limit))
                 \/ superstep merge g (run_state run) frf = Err e)
         end.
Proof.
  intros Hstep. induction limit as [|limit IH]; intros taken base s fr st evs new0 Hinv;
    cbv zeta.
  - exists [], fr. rewrite !app_nil_r. destruct fr as [|n fr]; simpl.
    + auto.
    + split; [reflexivity|]. split; [exact Hinv|]. split; [discriminate|].
      left. do 2 f_equal. lia.
  - destruct fr as [|n fr].
    + exists [], []. rewrite !app_nil_r. simpl. auto.
    + cbn [superstep_loop].
      destruct (superstep merge g s (n :: fr)) as [[[s' fr'] ev]|e] eqn:E.
      * destruct (IH (S taken) base s' fr'
                    (commit g tid {| step_index := base + S taken; state_snapshot := s';
                                     next_frontier := fr' |} st)
                    (evs ++ [ev]) (new0 ++ [ev])) as (new & frf & Hev & Hi & Hst).
        { apply (Hstep new0 s (n :: fr)); [exact Hinv | discriminate | exact E]. }
        exists (ev :: new), frf. rewrite Hev, <- !app_assoc in *. simpl in *.
        split; [reflexivity|]. split; [exact Hi|].
        destruct (run_status _); [exact Hst|].
        destruct Hst as [Hne [-> | Herr]]; (split; [exact Hne|]).
        -- left. do 2 f_equal. lia.
        -- right. exact Herr.
      * exists [], (n :: fr). rewrite !app_nil_r. simpl.
        split; [reflexivity|]. split; [exact Hinv|]. split; [discriminate|].
        right. exact E.
Qed.

End EngineInvariant.

(** ** Runs of the chat executor *)

Module ChatExecutorRuns.
Import ChatExecutor ChatExecutorFacts.

Lemma py_last_err {A} (l : list A) (e : exn) :
  py_last l = Err e -> l = [] /\ e = IndexError.
Proof.
  induction l as [|x l IH]; simpl.
  - intros [= <-]. auto.
  - destruct l as [|y l]; [discriminate|]. intros H. destruct (IH H) as [? _]. discriminate.
Qed.

Section WithCollaborators.
Variable env : Collaborators.

Lemma call_tool_inv (s : AgentState) (u : AgentUpdate) :
  call_tool env s = Ok u ->
  exists last_message function_call tool_name arguments parsed response,
    py_last (messages s) = Ok last_message
    /\ additional_kwargs last_message !! "function_call" = Some function_call
    /\ function_call !! "name" = Some tool_name
    /\ function_call !! "arguments" = Some arguments
    /\ json_loads env arguments = Ok parsed
    /\ tool_executor_invoke env {| tool := tool_name; tool_input := parsed |} = Ok response
    /\ u = {| upd_messages := Some [FunctionMessage response tool_name] |}.
Proof.
  unfold call_tool, getitem. cbv zeta.
  destruct (py_last (messages s)) as [m|] eqn:Hl; simpl; [|discriminate].
  destruct (additional_kwargs m !! "function_call") as [fc|] eqn:Hfc; simpl; [|discriminate].
  destruct (fc !! "name") as [nm|] eqn:Hn; simpl; [|discriminate].
  destruct (fc !! "arguments") as [args|] eqn:Ha; simpl; [|discriminate].
  destruct (json_loads env args) as [parsed|] eqn:Hj; simpl; [|discriminate].
  destruct (tool_executor_invoke env _) as [obs|] eqn:Ht; simpl; [|discriminate].
  intros [= <-]. exists m, fc, nm, args, parsed, obs. auto 10.
Qed.

(** X1: [call_tool] returns exactly when the last message holds a function call
    with a name and with arguments that [json.loads] accepts and the tool
    executor returns; the update is then the single [FunctionMessage] with
    the tool's response as content and the tool's name as name. *)
Theorem call_tool_returns_iff (s : AgentState) (u : AgentUpdate) :
  call_tool env s = Ok u <->
  exists last_message function_call tool_name arguments parsed response,
    py_last (messages s) = Ok last_message
    /\ additional_kwargs last_message !! "function_call" = Some function_call
    /\ function_call !! "name" = Some tool_name
    /\ function_call !! "arguments" = Some arguments
    /\ json_loads env arguments = Ok parsed
    /\ tool_executor_invoke env {| tool := tool_name; tool_input := parsed |} = Ok response
    /\ u = {| upd_messages := Some [FunctionMessage response tool_name] |}.
Proof.
  split.
  - apply call_tool_inv.
  - intros (m & fc & nm & args & parsed & obs & Hl & Hfc & Hn & Ha & Hj & Ht & ->).
    apply (call_tool_ok env s m fc nm args parsed obs); assumption.
Qed.

(** X2: Every failure of [call_tool] has one of six causes, checked in this
    order: no message, no function call in the last message, no name, no
    arguments, arguments [json.loads] rejects, a tool executor that raises. *)
Theorem call_tool_failures (s : AgentState) (e : exn) :
  call_tool env s = Err e ->
  (messages s = [] /\ e = IndexError)
  \/ exists last_message,
      py_last (messages s) = Ok last_message
      /\ ((additional_kwargs last_message !! "function_call" = None
           /\ e = KeyError "function_call")
          \/ exists function_call,
              additional_kwargs last_message !! "function_call" = Some function_call
              /\ ((function_call !! "name" = None /\ e = KeyError "name")
                  \/ exists tool_name,
                      function_call !! "name" = Some tool_name
                      /\ ((function_call !! "arguments" = None /\ e = KeyError "arguments")
                          \/ exists arguments,
                              function_call !! "arguments" = Some arguments
                              /\ (json_loads env arguments = Err e
                                  \/ exists parsed,
                                      json_loads env arguments = Ok parsed
                                      /\ tool_executor_invoke env
                                           {| tool := tool_name; tool_input := parsed |}
                                         = Err e)))).
Proof.
  unfold call_tool, getitem. cbv zeta.
  destruct (py_last (messages s)) as [m|x] eqn:Hl; simpl.
  - intros H. right. exists m. split; [reflexivity|].
    destruct (additional_kwargs m !! "function_call") as [fc|] eqn:Hfc; simpl in H;
      [|injection H as <-; left; auto].
    right. exists fc. split; [reflexivity|].
    destruct (fc !! "name") as [nm|] eqn:Hn; simpl in H; [|injection H as <-; left; auto].
    right. exists nm. split; [reflexivity|].
    destruct (fc !! "arguments") as [args|] eqn:Ha; simpl in H;
      [|injection H as <-; left; auto].
    right. exists args. split; [reflexivity|].
    destruct (json_loads env args) as [parsed|x] eqn:Hj; simpl in H;
      [|injection H as <-; left; reflexivity].
    right. exists parsed. split; [reflexivity|].
    destruct (tool_executor_invoke env _) as [obs|x] eqn:Ht; simpl in H; [discriminate|].
    injection H as <-. reflexivity.
  - intros [= <-]. left. apply py_last_err. exact Hl.
Qed.

(** The invariant of a run of [app]: every event carries one message of one
    node, and the frontier is one node, or empty after a response of the
    model without function call. *)
Lemma chat_invariant (new : list Event) (s s' : AgentState) (fr fr' : list string)
    (ev : Event) :
  let Inv (new : list Event) (s : AgentState) (fr : list string) :=
    Forall (fun ev : Event => exists n m, ev = [(n, {| upd_messages := Some [m] |})]) new
    /\ (fr = ["agent"] \/ fr = ["action"]
        \/ (fr = []
            /\ exists r, last new = Some [("agent", {| upd_messages := Some [r] |})]
                         /\ py_last (messages s) = Ok r
                         /\ additional_kwargs r !! "function_call" = None)) in
  Inv new s fr -> fr <> [] -> superstep merge (app env) s fr = Ok (s', fr', ev) ->
  Inv (new ++ [ev]) s' fr'.
Proof.
  intros Inv [Hall Hfr] Hne Hstep. destruct Hfr as [-> | [-> | [-> _]]]; [| |congruence].
  - rewrite superstep_agent in Hstep.
    destruct (model_invoke env (messages s)) as [r|]; [|discriminate].
    injection Hstep as <- <- <-. split.
    + apply Forall_app. split; [exact Hall|]. constructor; [eauto | constructor].
    + unfold next_of. destruct (additional_kwargs r !! "function_call") eqn:Hfc; auto.
      right. right. split; [reflexivity|]. exists r. rewrite last_snoc.
      split; [reflexivity|]. split; [simpl; apply py_last_snoc | exact Hfc].
  - rewrite superstep_action in Hstep.
    destruct (call_tool env s) as [u|] eqn:Hu; [|discriminate].
    injection Hstep as <- <- <-. split; [|auto].
    apply Forall_app. split; [exact Hall|]. constructor; [|constructor].
    apply call_tool_inv in Hu.
    destruct Hu as (_ & _ & nm & _ & _ & obs & _ & _ & _ & _ & _ & _ & ->). eauto.
Qed.

Lemma single_messages_length (evs : list Event) :
  Forall (fun ev : Event => exists n m, ev = [(n, {| upd_messages := Some [m] |})]) evs ->
  length (event_messages evs) = length evs.
Proof.
  unfold event_messages. induction 1 as [|ev evs (n & m & ->) _ IH]; simpl; [reflexivity|].
  rewrite IH. reflexivity.
Qed.

(** What the invariant gives for a run of [stream]. *)
Lemma stream_invariant (memory : gmap string (list Checkpoint)) (inputs : AgentUpdate)
    (thread_id : string) :
  let run := stream env memory inputs thread_id in
  exists frf,
    Forall (fun ev : Event => exists n m, ev = [(n, {| upd_messages := Some [m] |})])
      (run_events run)
    /\ (frf = ["agent"] \/ frf = ["action"]
        \/ (frf = []
            /\ exists r, last (run_events run) = Some [("agent", {| upd_messages := Some [r] |})]
                         /\ py_last (messages (run_state run)) = Ok r
                         /\ additional_kwargs r !! "function_call" = None))
    /\ match run_status run with
       | Finished => frf = []
       | Aborted e =>
           frf <> []
           /\ (e = RecursionLimitExceeded (S (default_recursion_limit env))
               \/ superstep merge (app env) (run_state run) frf = Err e)
       end.
Proof.
  intros run. subst run. unfold stream, invoke.
  change (checkpointer (app env)) with true. cbv iota.
  change (entry_point (app env)) with "agent".
  match goal with
  | |- context [superstep_loop ?m ?g ?t ?l ?k ?b ?s0 ?f ?st ?e] =>
      destruct (loop_invariant m g t _
                  (fun new1 s1 fr1 s2 fr2 ev1 => chat_invariant new1 s1 s2 fr1 fr2 ev1)
                  l k b s0 f st e [])
        as (new & frf & Hev & [Hall Hfr] & Hst)
  end.
  { split; [constructor | left; reflexivity]. }
  rewrite app_nil_l in Hev, Hall. exists frf. rewrite Hev.
  split; [exact Hall|]. split; [exact Hfr|]. exact Hst.
Qed.

(** X3: Every superstep of a run of the chat executor appends exactly one
    message, so the state a run ends in holds the restored messages, the
    input's messages and one message per event; a run that finishes ends on
    a response of the model that holds no function call. *)
Theorem stream_shape (memory : gmap string (list Checkpoint)) (inputs : AgentUpdate)
    (thread_id : string) :
  let run := stream env memory inputs thread_id in
  Forall (fun ev : Event => exists n m, ev = [(n, {| upd_messages := Some [m] |})])
    (run_events run)
  /\ length (messages (run_state run)) =
       length (match load thread_id memory with
               | Some ck => messages (state_snapshot ck)
               | None => []
               end)
       + length (default [] (upd_messages inputs)) + length (run_events run)
  /\ (run_status run = Finished ->
      exists response,
        last (run_events run) = Some [("agent", {| upd_messages := Some [response] |})]
        /\ py_last (messages (run_state run)) = Ok response
        /\ additional_kwargs response !! "function_call" = None
        /\ should_continue (run_state run) = Ok (KStr "end")).
Proof.
  intros run. destruct (stream_invariant memory inputs thread_id) as (frf & Hall & Hfr & Hst).
  fold run in Hall, Hfr, Hst. split; [exact Hall|]. split.
  - subst run. rewrite stream_messages, !length_app, single_messages_length by exact Hall.
    lia.
  - intros Hfin. rewrite Hfin in Hst. subst frf.
    destruct Hfr as [Hfr | [Hfr | [_ (r & Hlast & Hpl & Hfc)]]]; try discriminate.
    exists r. split; [exact Hlast|]. split; [exact Hpl|]. split; [exact Hfc|].
    unfold should_continue. cbv zeta. rewrite Hpl. simpl. rewrite Hfc. reflexivity.
Qed.

(** X4: A run of the chat executor never fails in routing: it aborts only on the
    recursion limit, on an exception of the model, or on a failure of
    [call_tool], raised on the state the run stopped in. *)
Theorem stream_aborts (memory : gmap string (list Checkpoint)) (inputs : AgentUpdate)
    (thread_id : string) (e : error) :
  let run := stream env memory inputs thread_id in
  run_status run = Aborted e ->
  e = RecursionLimitExceeded (default_recursion_limit env + 1)
  \/ (exists x, e = NodeExecutionFailure "agent" x
                /\ model_invoke env (messages (run_state run)) = Err x)
  \/ (exists x, e = NodeExecutionFailure "action" x
                /\ call_tool env (run_state run) = Err x).
Proof.
  intros run Hab.
  destruct (stream_invariant memory inputs thread_id) as (frf & _ & Hfr & Hst).
  fold run in Hfr, Hst. rewrite Hab in Hst. destruct Hst as [Hne [-> | Herr]].
  - left. f_equal. lia.
  - right. destruct Hfr as [-> | [-> | [-> _]]]; [| |congruence].
    + left. rewrite superstep_agent in Herr.
      destruct (model_invoke env (messages (run_state run))) as [r|x]; [discriminate|].
      injection Herr as <-. eauto.
    + right. rewrite superstep_action in Herr.
      destruct (call_tool env (run_state run)) as [u|x]; [discriminate|].
      injection Herr as <-. eauto.
Qed.

End WithCollaborators.

Lemma call_tool_returns_iff_witness :
  call_tool scripted {| messages := [HumanMessage "q"; tool_call_message] |}
  = Ok {| upd_messages := Some [FunctionMessage "observation" "tavily_answer"] |}.
Proof.
  apply (call_tool_returns_iff scripted).
  exists tool_call_message, (<["name" := "tavily_answer"]> {[ "arguments" := "{}" ]}),
    "tavily_answer", "{}", "{}", "observation".
  repeat split.
Defined.

Lemma call_tool_failures_witness :
  call_tool scripted {| messages := [HumanMessage "q"] |} = Err (KeyError "function_call")
  /\ exists last_message,
      py_last [HumanMessage "q"] = Ok last_message
      /\ additional_kwargs last_message !! "function_call" = None.
Proof.
  split; [reflexivity|].
  destruct (call_tool_failures scripted {| messages := [HumanMessage "q"] |}
              (KeyError "function_call") eq_refl)
    as [[Hnil _] | (m & Hl & [[Hnone _] | (fc & Hfc & _)])].
  - discriminate Hnil.
  - exists m. split; [exact Hl | exact Hnone].
  - simpl in Hl. injection Hl as <-. discriminate Hfc.
Defined.

Lemma stream_shape_witness :
  let run := stream scripted ∅ {| upd_messages := Some [HumanMessage "q"] |} "2" in
  run_status run = Finished
  /\ length (messages (run_state run)) = 0 + 1 + length (run_events run)
  /\ exists response,
      py_last (messages (run_state run)) = Ok response
      /\ additional_kwargs response !! "function_call" = None.
Proof.
  destruct (stream_shape scripted ∅ {| upd_messages := Some [HumanMessage "q"] |} "2")
    as (_ & Hlen & Hfin).
  split; [reflexivity|]. split; [exact Hlen|].
  destruct (Hfin eq_refl) as (response & _ & Hl & Hfc & _).
  exists response. split; [exact Hl | exact Hfc].
Defined.

Lemma stream_aborts_witness :
  let nameless :=
    {| type := ai; content := ""; name := None;
       additional_kwargs := {[ "function_call" := {[ "arguments" := "{}" ]} ]} |} in
  let env :=
    {| JSON := string; model_invoke := fun _ => Ok nameless; json_loads := fun s => Ok s;
       tool_executor_invoke := fun _ => Ok "observation"; default_recursion_limit := 25 |} in
  let run := stream env ∅ {| upd_messages := Some [HumanMessage "q"] |} "2" in
  run_status run = Aborted (NodeExecutionFailure "action" (KeyError "name"))
  /\ call_tool env (run_state run) = Err (KeyError "name").
Proof.
  intros nameless env run.
  assert (Hab : run_status run = Aborted (NodeExecutionFailure "action" (KeyError "name")))
    by (vm_compute; reflexivity).
  split; [exact Hab|].
  pose proof (stream_aborts env ∅ {| upd_messages := Some [HumanMessage "q"] |} "2"
                (NodeExecutionFailure "action" (KeyError "name"))) as H.
  cbv zeta in H. fold run in H.
  destruct (H Hab) as [Hrec | [(x & Hx & _) | (x & Hx & Hcall)]].
  - discriminate Hrec.
  - discriminate Hx.
  - injection Hx as <-. exact Hcall.
Defined.

End ChatExecutorRuns.

(** ** Runs of the plan-and-execute graphs *)

Module PlanAndExecuteRuns.
Import PlanAndExecute PlanAndExecuteFacts.

Section WithCollaborators.
Variable env : Collaborators.

(** *** The sub-graph *)

(** The invariant of a run of the sub-graph: no node writes [input] or
    [chat_history]; every recorded step pairs an action with the text of
    what the tool executor gave for it; the tools are only scheduled on a
    state that holds an agent outcome, and the run only ends on an
    [AgentFinish]. *)
Lemma subgraph_invariant (s0 : ExecAgentState) (new : list Event) (s s' : ExecAgentState)
    (fr fr' : list string) (ev : Event) :
  let Inv (new : list Event) (s : ExecAgentState) (fr : list string) :=
    exec_input s = exec_input s0
    /\ chat_history s = chat_history s0
    /\ Forall (fun p => snd p = str_out (tool_executor_invoke env (fst p)))
         (intermediate_steps s)
    /\ (fr = ["subagent"]
        \/ (fr = ["action"] /\ exists o, agent_outcome s = Some o)
        \/ (fr = [] /\ exists f, agent_outcome s = Some (One (Finish f)))) in
  Inv new s fr -> fr <> [] -> superstep exec_merge (executor_agent env) s fr = Ok (s', fr', ev) ->
  Inv (new ++ [ev]) s' fr'.
Proof.
  intros Inv (Hin & Hch & Hsteps & Hfr) Hne Hstep.
  destruct Hfr as [-> | [[-> [o Ho]] | [-> _]]]; [| |congruence].
  - rewrite superstep_subagent in Hstep. unfold run_agent in Hstep.
    destruct (agent_runnable_ainvoke env s) as [o|]; simpl in Hstep; [|discriminate].
    injection Hstep as <- <- <-. split; [exact Hin|]. split; [exact Hch|].
    split; [exact Hsteps|]. simpl.
    destruct o as [[a|f|]|l]; eauto 6.
  - rewrite superstep_tools, (execute_tools_eq env s o Ho) in Hstep.
    injection Hstep as <- <- <-. split; [exact Hin|]. split; [exact Hch|]. split; [|auto].
    simpl. apply Forall_app. split; [exact Hsteps|].
    apply List.Forall_forall. intros p Hp. apply in_map_iff in Hp.
    destruct Hp as (a & <- & _). reflexivity.
Qed.

(** What the invariant gives for the run [executor_agent.ainvoke] makes. *)
Lemma executor_agent_run (inputs : ExecAgentUpdate) :
  upd_intermediate_steps inputs = None ->
  let run := invoke exec_empty exec_merge (executor_agent env) ∅ "" inputs
               (default_recursion_limit env) in
  exists frf,
    exec_input (run_state run) = upd_exec_input inputs
    /\ chat_history (run_state run) = upd_chat_history inputs
    /\ Forall (fun p => snd p = str_out (tool_executor_invoke env (fst p)))
         (intermediate_steps (run_state run))
    /\ (frf = ["subagent"]
        \/ (frf = ["action"] /\ exists o, agent_outcome (run_state run) = Some o)
        \/ (frf = [] /\ exists f, agent_outcome (run_state run) = Some (One (Finish f))))
    /\ match run_status run with
       | Finished => frf = []
       | Aborted e =>
           frf <> []
           /\ (e = RecursionLimitExceeded (S (default_recursion_limit env))
               \/ superstep exec_merge (executor_agent env) (run_state run) frf = Err e)
       end.
Proof.
  intros Hnone run. subst run. unfold invoke.
  change (checkpointer (executor_agent env)) with false. cbv iota.
  change (entry_point (executor_agent env)) with "subagent".
  destruct (loop_invariant exec_merge (executor_agent env) "" _
              (fun new1 s1 fr1 s2 fr2 ev1 =>
                 subgraph_invariant (exec_merge exec_empty inputs) new1 s1 s2 fr1 fr2 ev1)
              (default_recursion_limit env) 0 0 (exec_merge exec_empty inputs)
              ["subagent"] ∅ [] [])
    as (new & frf & _ & (Hin & Hch & Hsteps & Hfr) & Hst).
  { split; [reflexivity|]. split; [reflexivity|]. split; [|left; reflexivity].
    simpl. rewrite Hnone. constructor. }
  exists frf.
  split; [rewrite Hin; simpl; destruct (upd_exec_input inputs); reflexivity|].
  split; [rewrite Hch; simpl; destruct (upd_chat_history inputs); reflexivity|].
  split; [exact Hsteps|]. split; [exact Hfr | exact Hst].
Qed.


Lemma executor_agent_finish (inputs : ExecAgentUpdate) (final : ExecAgentState) :
  upd_intermediate_steps inputs = None ->
  executor_agent_ainvoke env inputs = Ok final ->
  exists f, agent_outcome final = Some (One (Finish f)).
Proof.
  intros Hnone. unfold executor_agent_ainvoke.
  destruct (executor_agent_run inputs Hnone) as (frf & _ & _ & _ & Hfr & Hst).
  cbv zeta in *. destruct (run_status _); [|discriminate].
  intros [= <-]. subst frf.
  destruct Hfr as [Hfr | [[Hfr _] | [_ Hf]]]; try discriminate. exact Hf.
Qed.

(** [executor_agent.ainvoke] raises only the recursion error of the
    sub-graph or an exception of the agent runnable: a tool that fails
    never aborts it. *)
Lemma executor_agent_failures (inputs : ExecAgentUpdate) (e : exn) :
  upd_intermediate_steps inputs = None ->
  executor_agent_ainvoke env inputs = Err e ->
  e = ExternalError "GraphRecursionError"
  \/ exists data, agent_runnable_ainvoke env data = Err e.
Proof.
  intros Hnone. unfold executor_agent_ainvoke.
  destruct (executor_agent_run inputs Hnone) as (frf & _ & _ & _ & Hfr & Hst).
  cbv zeta in *. destruct (run_status _) as [|err]; [discriminate|].
  intros [= <-]. destruct Hst as [Hne [-> | Herr]]; [left; reflexivity|].
  right. destruct Hfr as [-> | [[-> [o Ho]] | [-> _]]]; [| |congruence].
  - rewrite superstep_subagent in Herr. unfold run_agent in Herr.
    destruct (agent_runnable_ainvoke env _) as [o|x] eqn:E; simpl in Herr; [discriminate|].
    injection Herr as <-. eauto.
  - rewrite superstep_tools, (execute_tools_eq env _ o Ho) in Herr. discriminate.
Qed.

(** *** The main nodes *)

Lemma plan_step_inv (state : PlanExecute) (u : PlanExecuteUpdate) :
  plan_step env state = Ok u ->
  exists p,
    u = {| upd_input := None; upd_messages := None; upd_plan := Some (steps p);
           upd_past_steps := None; upd_response := Some "" |}.
Proof.
  unfold plan_step. destruct (input state); simpl; [|discriminate].
  destruct (planner_ainvoke env _ _) as [p|]; simpl; [|discriminate].
  intros [= <-]. eauto.
Qed.

Lemma execute_step_inv (state : PlanExecute) (u : PlanExecuteUpdate) :
  execute_step env state = Ok u -> exists task output, u = past_step_update task output.
Proof.
  unfold execute_step. destruct (plan state) as [[|task rest]|]; simpl; try discriminate.
  destruct (executor_agent_ainvoke env _) as [r|]; simpl; [|discriminate].
  destruct (agent_outcome r) as [[[a|f|]|l]|]; simpl; try discriminate.
  destruct (getitem "output" (return_values f)) as [output|]; simpl; [|discriminate].
  intros [= <-]. eauto.
Qed.

Lemma replan_step_inv (state : PlanExecute) (u : PlanExecuteUpdate) :
  replan_step env state = Ok u ->
  (exists p,
      u = {| upd_input := None; upd_messages := None; upd_plan := Some (steps p);
             upd_past_steps := None; upd_response := None |})
  \/ (exists c,
        u = {| upd_input := None; upd_messages := Some [AIMessage c]; upd_plan := None;
               upd_past_steps := None; upd_response := Some c |}).
Proof.
  unfold replan_step.
  destruct (replanner_ainvoke env state) as [[p|r|q|i]|]; simpl; [| | | |discriminate];
    intros [= <-]; eauto.
Qed.

(** X6: [execute_step] fails only for a missing plan, a plan without steps, the
    recursion limit of the sub-graph, an exception of the agent runnable, or
    an [AgentFinish] without ["output"]; a failing tool never makes it
    fail. *)
Theorem execute_step_failures (state : PlanExecute) (e : exn) :
  execute_step env state = Err e ->
  (plan state = None /\ e = KeyError "plan")
  \/ (plan state = Some [] /\ e = IndexError)
  \/ (exists task rest,
        plan state = Some (task :: rest)
        /\ (e = ExternalError "GraphRecursionError"
            \/ (exists data, agent_runnable_ainvoke env data = Err e)
            \/ (e = KeyError "output"
                /\ exists final f,
                    executor_agent_ainvoke env (projected_input task state) = Ok final
                    /\ agent_outcome final = Some (One (Finish f))
                    /\ return_values f !! "output" = None))).
Proof.
  unfold execute_step.
  destruct (plan state) as [[|task rest]|]; simpl; [intros [= <-]; auto | | intros [= <-]; auto].
  intros H. right. right. exists task, rest. split; [reflexivity|].
  fold (projected_input task state) in H.
  destruct (executor_agent_ainvoke env (projected_input task state)) as [final|x] eqn:E;
    simpl in H.
  - destruct (executor_agent_finish (projected_input task state) final eq_refl E) as [f Hf].
    rewrite Hf in H. simpl in H. unfold getitem in H.
    destruct (return_values f !! "output") eqn:Hout; simpl in H; [discriminate|].
    injection H as <-. right. right. split; [reflexivity|]. exists final, f. auto.
  - injection H as <-.
    destruct (executor_agent_failures (projected_input task state) x eq_refl E)
      as [-> | Hagent]; auto.
Qed.

Lemma run_app_prints_snoc (new : list Event) (ev : Event) :
  run_app_prints (new ++ [ev]) = run_app_prints new ++ flat_map print_item ev.
Proof.
  unfold run_app_prints. rewrite flat_map_app. simpl. rewrite app_nil_r. reflexivity.
Qed.

(** The invariant of a run of [app] that enters on [s0]: no node writes
    [input]; [past_steps] and [messages] only grow; while the run goes on,
    [response] is empty and no closing line was printed; the run ends on a
    non-empty response, which is the content of the last message and of the
    one closing line, printed last. *)
Lemma main_invariant (s0 : PlanExecute) (new : list Event) (s s' : PlanExecute)
    (fr fr' : list string) (ev : Event) :
  let Inv (new : list Event) (s : PlanExecute) (fr : list string) :=
    input s = input s0
    /\ (exists more, past_steps s = past_steps s0 ++ more)
    /\ (exists more, messages s = messages s0 ++ more)
    /\ ((fr = ["planner"] /\ new = [])
        \/ ((fr = ["agent"] \/ fr = ["replan"])
            /\ response s = Some ""
            /\ Forall (fun p => is_printed_end p = false) (run_app_prints new))
        \/ (fr = []
            /\ exists r u lines,
                r <> ""
                /\ response s = Some r
                /\ py_last (messages s) = Ok (AIMessage r)
                /\ upd_response u = Some r
                /\ run_app_prints new = lines ++ [printed_value u; printed_end r]
                /\ Forall (fun p => is_printed_end p = false) lines)) in
  Inv new s fr -> fr <> [] -> superstep merge (app env) s fr = Ok (s', fr', ev) ->
  Inv (new ++ [ev]) s' fr'.
Proof.
  intros Inv (Hin & [ps Hps] & [ms Hms] & Hfr) Hne Hstep. unfold Inv.
  rewrite run_app_prints_snoc.
  destruct Hfr as [[-> ->] | [[[-> | ->] [Hresp Hnoend]] | [-> _]]]; [| | |congruence].
  - rewrite superstep_planner in Hstep.
    destruct (plan_step env s) as [u|] eqn:E; [|discriminate].
    injection Hstep as <- <- <-. destruct (plan_step_inv _ _ E) as [p ->]. simpl.
    split; [exact Hin|]. split; [rewrite Hps; eauto|]. split; [rewrite Hms; eauto|].
    right. left. split; [auto|]. split; [reflexivity|]. repeat constructor.
  - rewrite superstep_execute in Hstep.
    destruct (execute_step env s) as [u|] eqn:E; [|discriminate].
    injection Hstep as <- <- <-. destruct (execute_step_inv _ _ E) as (task & output & ->).
    simpl. split; [exact Hin|]. split; [rewrite Hps, <- app_assoc; eauto|].
    split; [rewrite Hms; eauto|].
    right. left. split; [auto|]. split; [exact Hresp|].
    apply Forall_app. split; [exact Hnoend | repeat constructor].
  - rewrite superstep_replan in Hstep.
    destruct (replan_step env s) as [u|] eqn:E; [|discriminate].
    injection Hstep as <- <- <-.
    destruct (replan_step_inv _ _ E) as [[p ->] | [c ->]]; unfold should_end; simpl.
    + rewrite Hresp. simpl. split; [exact Hin|]. split; [rewrite Hps; eauto|].
      split; [rewrite Hms; eauto|]. right. left. split; [auto|]. split; [reflexivity|].
      apply Forall_app. split; [exact Hnoend | repeat constructor].
    + split; [exact Hin|]. split; [rewrite Hps; eauto|].
      split; [rewrite Hms, <- app_assoc; eauto|].
      destruct (String.eqb c "") eqn:Hc.
      * apply String.eqb_eq in Hc. subst c. right. left. split; [auto|].
        split; [reflexivity|]. apply Forall_app. split; [exact Hnoend | repeat constructor].
      * apply String.eqb_neq in Hc. right. right. split; [reflexivity|].
        exists c, {| upd_input := None; upd_messages := Some [AIMessage c];
                     upd_plan := None; upd_past_steps := None; upd_response := Some c |},
          (run_app_prints new).
        split; [exact Hc|]. split; [reflexivity|].
        split; [apply py_last_snoc|]. split; [reflexivity|]. split; [reflexivity|].
        exact Hnoend.
Qed.

(** What the invariant gives for a run of [run_app]. *)
Lemma run_app_invariant (memory : gmap string (list Checkpoint)) (input thread_id : string)
    (recursion_limit : nat) :
  let run := run_app env memory input thread_id recursion_limit in
  let restored := match load thread_id memory with
                  | Some ck => state_snapshot ck
                  | None => empty
                  end in
  exists frf,
    PlanAndExecute.input (run_state run) = Some input
    /\ (exists more, past_steps (run_state run) = past_steps restored ++ more)
    /\ (exists more, messages (run_state run) = messages restored ++ more)
    /\ ((frf = ["planner"] /\ run_events run = [])
        \/ ((frf = ["agent"] \/ frf = ["replan"])
            /\ response (run_state run) = Some ""
            /\ Forall (fun p => is_printed_end p = false) (run_app_prints (run_events run)))
        \/ (frf = []
            /\ exists r u lines,
                r <> ""
                /\ response (run_state run) = Some r
                /\ py_last (messages (run_state run)) = Ok (AIMessage r)
                /\ upd_response u = Some r
                /\ run_app_prints (run_events run)
                   = lines ++ [printed_value u; printed_end r]
                /\ Forall (fun p => is_printed_end p = false) lines))
    /\ match run_status run with
       | Finished => frf = []
       | Aborted e =>
           frf <> []
           /\ (e = RecursionLimitExceeded (S (default_recursion_limit env))
               \/ superstep merge (app env) (run_state run) frf = Err e)
       end.
Proof.
  intros run restored. subst run. rewrite run_app_eq. unfold invoke.
  change (checkpointer (app env)) with true. cbv iota.
  change (entry_point (app env)) with "planner".
  match goal with
  | |- context [superstep_loop ?m ?g ?t ?l ?k ?b ?s0 ?f ?st ?e] =>
      destruct (loop_invariant m g t _
                  (fun new1 s1 fr1 s2 fr2 ev1 => main_invariant s0 new1 s1 s2 fr1 fr2 ev1)
                  l k b s0 f st e [])
        as (new & frf & Hev & (Hin & Hps & Hms & Hfr) & Hst);
      [ split; [reflexivity|]; split; [exists []; symmetry; apply app_nil_r|];
        split; [exists []; symmetry; apply app_nil_r|]; left; auto
      | assert (Hs0 : PlanAndExecute.input s0 = Some input
                      /\ past_steps s0 = past_steps restored
                      /\ messages s0 = messages restored)
          by (subst restored; destruct (load thread_id memory); auto) ]
  end.
  destruct Hs0 as (Hi0 & Hp0 & Hm0). rewrite Hi0 in Hin. rewrite Hp0 in Hps.
  rewrite Hm0 in Hms. rewrite !app_nil_l in *. exists frf. rewrite Hev.
  split; [exact Hin|]. split; [exact Hps|]. split; [exact Hms|]. split; [exact Hfr|].
  exact Hst.
Qed.

(** X7: A run of [run_app] that finishes ends on a non-empty response: it is
    what [should_end] accepts, and the last message is the [AIMessage] that
    carries it. *)
Theorem finished_run_has_response (memory : gmap string (list Checkpoint))
    (input thread_id : string) (recursion_limit : nat) :
  let run := run_app env memory input thread_id recursion_limit in
  run_status run = Finished ->
  exists r,
    r <> ""
    /\ response (run_state run) = Some r
    /\ py_last (messages (run_state run)) = Ok (AIMessage r)
    /\ should_end (run_state run) = Ok (KBool true).
Proof.
  intros run Hfin.
  destruct (run_app_invariant memory input thread_id recursion_limit)
    as (frf & _ & _ & _ & Hfr & Hst).
  fold run in Hfr, Hst. rewrite Hfin in Hst. subst frf.
  destruct Hfr as [[Hfr _] | [[[Hfr | Hfr] _] | [_ (r & u & lines & Hr & Hresp & Hl & _)]]];
    try discriminate.
  exists r. split; [exact Hr|]. split; [exact Hresp|]. split; [exact Hl|].
  unfold should_end. rewrite Hresp. apply String.eqb_neq in Hr. rewrite Hr. reflexivity.
Qed.

(** X8: A run of [run_app] never fails in routing: it aborts only on the
    recursion limit or on the failure of the node it stopped at, which is
    an exception of the planner, a failure of [execute_step], or an
    exception of the replanner, on the state the run stopped in. *)
Theorem run_app_aborts (memory : gmap string (list Checkpoint)) (input thread_id : string)
    (recursion_limit : nat) (e : error) :
  let run := run_app env memory input thread_id recursion_limit in
  run_status run = Aborted e ->
  e = RecursionLimitExceeded (default_recursion_limit env + 1)
  \/ (exists x, e = NodeExecutionFailure "planner" x
                /\ planner_ainvoke env input (messages (run_state run)) = Err x)
  \/ (exists x, e = NodeExecutionFailure "agent" x
                /\ execute_step env (run_state run) = Err x)
  \/ (exists x, e = NodeExecutionFailure "replan" x
                /\ replanner_ainvoke env (run_state run) = Err x).
Proof.
  intros run Hab.
  destruct (run_app_invariant memory input thread_id recursion_limit)
    as (frf & Hin & _ & _ & Hfr & Hst).
  fold run in Hin, Hfr, Hst. rewrite Hab in Hst. destruct Hst as [Hne [-> | Herr]].
  - left. f_equal. lia.
  - right. destruct Hfr as [[-> _] | [[[-> | ->] _] | [-> _]]]; [| | |congruence].
    + left. rewrite superstep_planner in Herr. unfold plan_step in Herr.
      rewrite Hin in Herr. simpl in Herr.
      destruct (planner_ainvoke env input (messages (run_state run))) as [p|x];
        [discriminate|].
      injection Herr as <-. eauto.
    + right. left. rewrite superstep_execute in Herr.
      destruct (execute_step env (run_state run)) as [u|x]; [discriminate|].
      injection Herr as <-. eauto.
    + right. right. rewrite superstep_replan in Herr. unfold replan_step in Herr.
      destruct (replanner_ainvoke env (run_state run)) as [[p|r|q|i]|x];
        try discriminate.
      injection Herr as <-. eauto.
Qed.

(** X9: [run_app] prints the closing line exactly when the run finishes: once,
    as its last line, right after the value that carries the response, and
    with the response the state ends on; a run that aborts prints no closing
    line. *)
Theorem run_app_closing_line (memory : gmap string (list Checkpoint))
    (input thread_id : string) (recursion_limit : nat) :
  let run := run_app env memory input thread_id recursion_limit in
  let out := run_app_prints (run_events run) in
  (run_status run = Finished ->
   exists lines u r,
     out = lines ++ [printed_value u; printed_end r]
     /\ Forall (fun p => is_printed_end p = false) lines
     /\ upd_response u = Some r
     /\ response (run_state run) = Some r)
  /\ (forall e, run_status run = Aborted e -> Forall (fun p => is_printed_end p = false) out).
Proof.
  intros run out.
  destruct (run_app_invariant memory input thread_id recursion_limit)
    as (frf & _ & _ & _ & Hfr & Hst).
  fold run in Hfr, Hst. fold out in Hfr. split.
  - intros Hfin. rewrite Hfin in Hst. subst frf.
    destruct Hfr as [[Hfr _] | [[[Hfr | Hfr] _]
                               | [_ (r & u & lines & _ & Hresp & _ & Hu & Hout & Hno)]]];
      try discriminate.
    exists lines, u, r. auto.
  - intros e Hab. rewrite Hab in Hst. destruct Hst as [Hne _].
    destruct Hfr as [[_ Hnil] | [[_ [_ Hno]] | [-> _]]]; [| exact Hno | congruence].
    subst out. rewrite Hnil. constructor.
Qed.

(** X10: After a run of [run_app] has finished, a later call on the same thread
    replaces [input] by its own, and the state it ends in (or stops in)
    still starts with the [past_steps] and the [messages] the earlier run
    ended with. *)
Theorem run_app_keeps_history (memory later : gmap string (list Checkpoint))
    (input1 input2 thread_id : string) (limit1 limit2 : nat) :
  let run1 := run_app env memory input1 thread_id limit1 in
  let run2 := run_app env later input2 thread_id limit2 in
  run_status run1 = Finished ->
  load thread_id later = load thread_id (run_store run1) ->
  PlanAndExecute.input (run_state run2) = Some input2
  /\ (exists more, past_steps (run_state run2) = past_steps (run_state run1) ++ more)
  /\ (exists more, messages (run_state run2) = messages (run_state run1) ++ more).
Proof.
  intros run1 run2 Hfin Hlater.
  assert (Hck : exists ck, load thread_id (run_store run1) = Some ck
                           /\ state_snapshot ck = run_state run1).
  { subst run1. rewrite run_app_eq in *. unfold invoke in *.
    match goal with
    | |- context [superstep_loop ?m ?g ?t ?l ?k ?b ?s0 ?f ?st ?e] =>
        destruct (loop_latest m g t l eq_refl k b s0 f st e)
          as [(_ & _ & _ & Hnil) | (ck & Hl & Hs & _)]
    end.
    - specialize (Hnil Hfin). discriminate.
    - exists ck. auto. }
  destruct Hck as (ck & Hl & Hs). rewrite Hl in Hlater.
  destruct (run_app_invariant later input2 thread_id limit2) as (frf & Hin & Hps & Hms & _).
  fold run2 in Hin, Hps, Hms. rewrite Hlater, Hs in Hps, Hms. auto.
Qed.

(** The response [plan_step] resets. *)
Lemma reachable_response (s : PlanExecute) (fr : list string) :
  reachable env s fr ->
  fr = [] \/ fr = ["planner"]
  \/ ((fr = ["agent"] \/ fr = ["replan"]) /\ response s = Some "").
Proof.
  induction 1 as [s | s s' fr fr' ev Hr IH Hstep].
  - right. left. reflexivity.
  - destruct IH as [-> | [-> | [[-> | ->] Hresp]]].
    + rewrite superstep_nil in Hstep. injection Hstep as <- <- <-. left. reflexivity.
    + rewrite superstep_planner in Hstep.
      destruct (plan_step env s) as [u|] eqn:E; [|discriminate].
      injection Hstep as <- <- <-. destruct (plan_step_inv _ _ E) as [p ->]. auto.
    + rewrite superstep_execute in Hstep.
      destruct (execute_step env s) as [u|] eqn:E; [|discriminate].
      injection Hstep as <- <- <-. destruct (execute_step_inv _ _ E) as (t & o & ->).
      simpl. auto.
    + rewrite superstep_replan in Hstep.
      destruct (replan_step env s) as [u|] eqn:E; [|discriminate].
      injection Hstep as <- <- <-.
      destruct (replan_step_inv _ _ E) as [[p ->] | [c ->]]; unfold should_end; simpl.
      * rewrite Hresp. simpl. auto.
      * destruct (String.eqb c "") eqn:Hc; [|auto].
        apply String.eqb_eq in Hc. subst c. auto.
Qed.

(** X11: Wherever the replan node is scheduled, the response is the empty one
    [plan_step] wrote, whatever an earlier invocation left on the thread. So
    after [replan_step] the run goes back to [execute_step] when the
    replanner gave a plan or an empty text, and ends when it gave a
    non-empty response, question or impossibility. *)
Theorem replan_outcome (s : PlanExecute) (u : PlanExecuteUpdate) :
  reachable env s ["replan"] ->
  replan_step env s = Ok u ->
  response s = Some ""
  /\ superstep merge (app env) s ["replan"] =
       Ok (merge s u,
           match upd_response u with
           | Some r => if String.eqb r "" then ["agent"] else []
           | None => ["agent"]
           end,
           [("replan", u)]).
Proof.
  intros Hr Hu.
  destruct (reachable_response s ["replan"] Hr) as [H | [H | [_ Hresp]]]; try discriminate.
  split; [exact Hresp|]. rewrite superstep_replan, Hu.
  destruct (replan_step_inv _ _ Hu) as [[p ->] | [c ->]]; unfold should_end; simpl.
  - rewrite Hresp. reflexivity.
  - destruct (String.eqb c ""); reflexivity.
Qed.

End WithCollaborators.


Lemma execute_step_failures_witness :
  execute_step scripted empty = Err (KeyError "plan")
  /\ ((plan empty = None /\ KeyError "plan" = KeyError "plan")
      \/ (plan empty = Some [] /\ KeyError "plan" = IndexError)
      \/ exists task rest, plan empty = Some (task :: rest)).
Proof.
  split; [reflexivity|].
  destruct (execute_step_failures scripted empty (KeyError "plan") eq_refl)
    as [H | [H | (task & rest & H & _)]]; eauto.
Defined.

Lemma finished_run_has_response_witness :
  exists r,
    response (run_state (run_app scripted ∅ "q" "4" 50)) = Some r
    /\ py_last (messages (run_state (run_app scripted ∅ "q" "4" 50))) = Ok (AIMessage r).
Proof.
  assert (Hfin : run_status (run_app scripted ∅ "q" "4" 50) = Finished)
    by (vm_compute; reflexivity).
  destruct (finished_run_has_response scripted ∅ "q" "4" 50 Hfin) as (r & _ & Hr & Hl & _).
  exists r. split; [exact Hr | exact Hl].
Defined.

Lemma run_app_aborts_witness :
  run_status (run_app planning_nothing ∅ "q" "4" 50)
    = Aborted (NodeExecutionFailure "agent" IndexError)
  /\ execute_step planning_nothing (run_state (run_app planning_nothing ∅ "q" "4" 50))
     = Err IndexError.
Proof.
  assert (Hab : run_status (run_app planning_nothing ∅ "q" "4" 50)
                = Aborted (NodeExecutionFailure "agent" IndexError))
    by (vm_compute; reflexivity).
  split; [exact Hab|].
  destruct (run_app_aborts planning_nothing ∅ "q" "4" 50 _ Hab)
    as [H | [(x & H & _) | [(x & H & Hx) | (x & H & _)]]]; try discriminate H.
  injection H as <-. exact Hx.
Defined.

Lemma run_app_closing_line_witness :
  exists lines u r,
    run_app_prints (run_events (run_app scripted ∅ "q" "4" 50))
      = lines ++ [printed_value u; printed_end r]
    /\ response (run_state (run_app scripted ∅ "q" "4" 50)) = Some r.
Proof.
  assert (Hfin : run_status (run_app scripted ∅ "q" "4" 50) = Finished)
    by (vm_compute; reflexivity).
  destruct (run_app_closing_line scripted ∅ "q" "4" 50) as [Hend _].
  destruct (Hend Hfin) as (lines & u & r & Hout & _ & _ & Hresp).
  exists lines, u, r. split; [exact Hout | exact Hresp].
Defined.

Lemma run_app_keeps_history_witness :
  let run1 := run_app scripted ∅ "q1" "4" 50 in
  let run2 := run_app scripted (run_store run1) "q2" "4" 50 in
  input (run_state run2) = Some "q2"
  /\ exists more, past_steps (run_state run2) = past_steps (run_state run1) ++ more.
Proof.
  intros run1 run2.
  assert (Hfin : run_status run1 = Finished) by (vm_compute; reflexivity).
  pose proof (run_app_keeps_history scripted ∅ (run_store run1) "q1" "q2" "4" 50 50) as H.
  cbv zeta in H. fold run1 in H. fold run2 in H.
  destruct (H Hfin eq_refl) as (Hin & Hps & _). split; [exact Hin | exact Hps].
Defined.

Lemma replan_outcome_witness :
  exists s fr ev,
    response s = Some ""
    /\ superstep merge (app scripted) s ["replan"] = Ok (merge s
          {| upd_input := None; upd_messages := Some [AIMessage "final answer"];
             upd_plan := None; upd_past_steps := None;
             upd_response := Some "final answer" |}, fr, ev)
    /\ fr = [].
Proof.
  set (s0 := {| input := Some "q"; messages := []; plan := None; past_steps := [];
                response := Some "stale" |}).
  set (s1 := {| input := Some "q"; messages := []; plan := Some ["look it up"];
                past_steps := []; response := Some "" |}).
  set (s2 := {| input := Some "q"; messages := []; plan := Some ["look it up"];
                past_steps := [("look it up", "found")]; response := Some "" |}).
  assert (Hr : reachable scripted s2 ["replan"]).
  { apply (reachable_step scripted s1 s2 ["agent"] ["replan"]
             [("agent", past_step_update "look it up" "found")]).
    - apply (reachable_step scripted s0 s1 ["planner"] ["agent"]
               [("planner", {| upd_input := None; upd_messages := None;
                               upd_plan := Some ["look it up"]; upd_past_steps := None;
                               upd_response := Some "" |})]).
      + apply reachable_entry.
      + vm_compute. reflexivity.
    - vm_compute. reflexivity. }
  destruct (replan_outcome scripted s2
              {| upd_input := None; upd_messages := Some [AIMessage "final answer"];
                 upd_plan := None; upd_past_steps := None;
                 upd_response := Some "final answer" |} Hr eq_refl) as [Hresp Hstep].
  exists s2. eexists. eexists. split; [exact Hresp|]. split; [exact Hstep|]. reflexivity.
Defined.

End PlanAndExecuteRuns.
